(** * hgvm-builder, [transparentunzip.py]: a transparently un-gzipping stream

    A shallow embedding of the class [TransparentUnzip] and the proofs of
    its specification.  The wrapped stream is the list of bytes it still
    has to deliver; zlib's decompression object is modelled over an
    abstract byte-driven inflate engine (class [Inflater]); exceptions are
    results that carry the state of the object at the time of the raise. *)

From Stdlib Require Import List ZArith Lia Bool Arith.
From Stdlib Require Import Strings.Byte.
From Stdlib Require Strings.String.
Import ListNotations.
Local Open Scope Z_scope.

(** ** Python byte strings *)

Definition bytes := list byte.

(** [len(s)] *)
Definition len (s : bytes) : Z := Z.of_nat (length s).

(** [s == ""] *)
Definition is_empty (s : bytes) : bool :=
  match s with [] => true | _ :: _ => false end.

(** [s[0:n]]: a negative bound counts from the end and is clipped at 0. *)
Definition slice_to (s : bytes) (n : Z) : bytes :=
  if 0 <=? n then firstn (Z.to_nat n) s
  else firstn (Z.to_nat (len s + n)) s.

(** [s[n:]] *)
Definition slice_from (s : bytes) (n : Z) : bytes :=
  if 0 <=? n then skipn (Z.to_nat n) s
  else skipn (Z.to_nat (len s + n)) s.

(** Index of the first [c] in [s], when the head of [s] has index [i];
    [-1] when there is none. *)
Fixpoint index_from (c : byte) (s : bytes) (i : Z) : Z :=
  match s with
  | [] => -1
  | x :: r => if Byte.eqb x c then i else index_from c r (i + 1)
  end.

(** [s.find(c, start)] *)
Definition find (s : bytes) (c : byte) (start : Z) : Z :=
  let from := if start <? 0 then Z.max 0 (len s + start) else start in
  index_from c (skipn (Z.to_nat from) s) from.

(** The line terminator ["\n"]. *)
Definition NL : byte := x0a.

(** ** The wrapped stream

    [stream.read(n)] of a file object: the next [n] bytes, fewer at the end
    of the file, all of them when [n] is negative. *)
Definition stream_read (n : Z) (s : bytes) : bytes * bytes :=
  if n <? 0 then (s, []) else (firstn (Z.to_nat n) s, skipn (Z.to_nat n) s).

(** ** zlib

    The inflate engine consumes its input byte by byte.  On each byte it
    reports the output that byte released, the end of the compressed
    member, or a data error. *)

Inductive inflate_ret (S : Type) : Type :=
| Z_OK (out : bytes) (z : S)
| Z_STREAM_END (out : bytes) (z : S)
| Z_DATA_ERROR.
Arguments Z_OK {S} out z.
Arguments Z_STREAM_END {S} out z.
Arguments Z_DATA_ERROR {S}.

Class Inflater : Type := {
  zstream : Type;
  (** the state set up by [inflateInit2(MAX_WBITS + 16)] *)
  inflateInit : zstream;
  (** [inflate] on one more byte of input *)
  inflate_byte : zstream -> byte -> inflate_ret zstream;
  (** the output [inflate(Z_FINISH)] still releases without more input *)
  inflate_finish : zstream -> bytes
}.

(** The exceptions the methods can leave with. *)
Inductive exn : Type := ZlibError | AttributeError | StopIteration.

Inductive zmode : Type := Running | StreamEnd | DataError.

Section Model.
Context {I : Inflater}.

(** *** [zlib.decompressobj] *)

Record decompressobj : Type := mkDecompress {
  zst : zstream;
  zmode_of : zmode;
  unused_data : bytes
}.

(** [zlib.decompressobj(zlib.MAX_WBITS + 16)] *)
Definition new_decompressobj : decompressobj :=
  mkDecompress inflateInit Running [].

(** Run the engine over [data]: output, final engine state, how the run
    ended and the input that was not consumed. *)
Fixpoint inflate (z : zstream) (data : bytes)
  : bytes * zstream * zmode * bytes :=
  match data with
  | [] => ([], z, Running, [])
  | b :: rest =>
      match inflate_byte z b with
      | Z_OK out z' =>
          let '(o, zf, m, r) := inflate z' rest in (out ++ o, zf, m, r)
      | Z_STREAM_END out z' => (out, z', StreamEnd, rest)
      | Z_DATA_ERROR => ([], z, DataError, rest)
      end
  end.

(** [d.decompress(data)]: [None] is [zlib.error].  Input given after the
    end of the member is appended to [unused_data]; an object that met a
    data error keeps failing. *)
Definition decompress (d : decompressobj) (data : bytes)
  : option bytes * decompressobj :=
  match zmode_of d with
  | StreamEnd =>
      (Some [], mkDecompress (zst d) StreamEnd (unused_data d ++ data))
  | DataError => (None, d)
  | Running =>
      let '(o, z, m, r) := inflate (zst d) data in
      match m with
      | DataError => (None, mkDecompress z DataError (unused_data d))
      | _ => (Some o, mkDecompress z m (unused_data d ++ r))
      end
  end.

(** [d.flush()]; the reader drops every object right after flushing it. *)
Definition flush (d : decompressobj) : bytes := inflate_finish (zst d).

(** *** The state of a [TransparentUnzip] object *)

Record TransparentUnzip : Type := mkTransparentUnzip {
  stream : bytes;
  decompressor : option decompressobj;
  header_read : option bool;
  buffer : bytes;
  compressed_bytes : Z;
  uncompressed_bytes : Z
}.

Definition set_stream (self : TransparentUnzip) (s : bytes) :=
  mkTransparentUnzip s (decompressor self) (header_read self) (buffer self)
    (compressed_bytes self) (uncompressed_bytes self).
Definition set_decompressor (self : TransparentUnzip)
  (d : option decompressobj) :=
  mkTransparentUnzip (stream self) d (header_read self) (buffer self)
    (compressed_bytes self) (uncompressed_bytes self).
Definition set_header_read (self : TransparentUnzip) (h : option bool) :=
  mkTransparentUnzip (stream self) (decompressor self) h (buffer self)
    (compressed_bytes self) (uncompressed_bytes self).
Definition set_buffer (self : TransparentUnzip) (b : bytes) :=
  mkTransparentUnzip (stream self) (decompressor self) (header_read self) b
    (compressed_bytes self) (uncompressed_bytes self).
Definition set_compressed_bytes (self : TransparentUnzip) (n : Z) :=
  mkTransparentUnzip (stream self) (decompressor self) (header_read self)
    (buffer self) n (uncompressed_bytes self).
Definition set_uncompressed_bytes (self : TransparentUnzip) (n : Z) :=
  mkTransparentUnzip (stream self) (decompressor self) (header_read self)
    (buffer self) (compressed_bytes self) n.

(** [__init__(self, stream)] *)
Definition init (s : bytes) : TransparentUnzip :=
  mkTransparentUnzip s (Some new_decompressobj) None [] 0 0.

(** The result of a method call: a value and the new state, an exception
    and the state it left behind, or no result at all. *)
Inductive outcome (A : Type) : Type :=
| Return (a : A) (self : TransparentUnzip)
| Raise (e : exn) (self : TransparentUnzip)
| Diverge.
Arguments Return {A} a self.
Arguments Raise {A} e self.
Arguments Diverge {A}.

Definition bind {A B : Type} (m : outcome A)
  (k : A -> TransparentUnzip -> outcome B) : outcome B :=
  match m with
  | Return a self => k a self
  | Raise e self => Raise e self
  | Diverge => Diverge
  end.

(** The state a call left behind, if it came back. *)
Definition final_state {A : Type} (m : outcome A) : option TransparentUnzip :=
  match m with
  | Return _ self => Some self
  | Raise _ self => Some self
  | Diverge => None
  end.

(** *** [buffer_chunk]

    The [else] branch of line 85: read from the stream and count. *)
Definition pull_chunk (chunk : Z) (self : TransparentUnzip)
  : bytes * TransparentUnzip :=
  let '(compressed, rest) := stream_read chunk (stream self) in
  (compressed,
   set_compressed_bytes (set_stream self rest)
     (compressed_bytes self + len compressed)).

(** Lines 70-90: where the next piece of input comes from. *)
Definition next_compressed (chunk : Z) (self : TransparentUnzip)
  : bytes * TransparentUnzip :=
  match decompressor self with
  | Some d =>
      if 0 <? len (unused_data d) then
        let self := set_buffer self (buffer self ++ flush d) in
        let compressed := unused_data d in
        let self := set_decompressor self (Some new_decompressobj) in
        (compressed, self)
      else pull_chunk chunk self
  | None => pull_chunk chunk self
  end.

(** Lines 92-153: what is done with the input just obtained. *)
Definition buffer_compressed (compressed : bytes) (self : TransparentUnzip)
  : outcome bool :=
  if is_empty compressed then
    match decompressor self, header_read self with
    | Some d, Some true =>
        let decompressed := flush d in
        let self := set_buffer self (buffer self ++ decompressed) in
        let self := set_decompressor self None in
        Return true self
    | _, _ => Return false self
    end
  else
    match header_read self with
    | None =>
        match decompressor self with
        | None => Raise AttributeError self
        | Some d =>
            match decompress d compressed with
            | (Some decompressed, d') =>
                let self := set_decompressor self (Some d') in
                let self := set_buffer self (buffer self ++ decompressed) in
                Return true (set_header_read self (Some true))
            | (None, d') =>
                let self := set_decompressor self (Some d') in
                let self := set_buffer self (buffer self ++ compressed) in
                Return true (set_header_read self (Some false))
            end
        end
    | Some true =>
        match decompressor self with
        | None => Raise AttributeError self
        | Some d =>
            match decompress d compressed with
            | (Some decompressed, d') =>
                let self := set_decompressor self (Some d') in
                Return true (set_buffer self (buffer self ++ decompressed))
            | (None, d') =>
                Raise ZlibError (set_decompressor self (Some d'))
            end
        end
    | Some false => Return true (set_buffer self (buffer self ++ compressed))
    end.

(** [buffer_chunk(self)]; [chunk] stands for the literal [16 * 2 ** 10] of
    line 88. *)
Definition buffer_chunk (chunk : Z) (self : TransparentUnzip)
  : outcome bool :=
  let '(compressed, self) := next_compressed chunk self in
  buffer_compressed compressed self.

(** The literal of line 88. *)
Definition CHUNK : Z := 16 * 2 ^ 10.

(** *** Loops of the shape [while cond and self.buffer_chunk(): body]

    [l] holds the local variables of the loop. *)
Fixpoint while_chunk_fuel {L : Type} (fuel : nat) (chunk : Z)
  (cond : L -> TransparentUnzip -> bool)
  (body : L -> TransparentUnzip -> L)
  (l : L) (self : TransparentUnzip) : outcome L :=
  match fuel with
  | O => Diverge
  | S fuel' =>
      if cond l self then
        match buffer_chunk chunk self with
        | Return true self' =>
            while_chunk_fuel fuel' chunk cond body (body l self') self'
        | Return false self' => Return l self'
        | Raise e self' => Raise e self'
        | Diverge => Diverge
        end
      else Return l self
  end.

(** What a successful [buffer_chunk] uses up: bytes of the stream, bytes a
    finished decompressor still holds, and the decompressor itself. *)
Definition mu (self : TransparentUnzip) : nat :=
  (3 * length (stream self) +
   match decompressor self with
   | Some d => 2 * length (unused_data d) + 1
   | None => 0
   end)%nat.

Definition while_chunk {L : Type} (chunk : Z)
  (cond : L -> TransparentUnzip -> bool)
  (body : L -> TransparentUnzip -> L)
  (l : L) (self : TransparentUnzip) : outcome L :=
  while_chunk_fuel (S (mu self)) chunk cond body l self.

(** *** [read(self, size)] *)
Definition read (chunk : Z) (size : Z) (self : TransparentUnzip)
  : outcome bytes :=
  bind (while_chunk chunk (fun _ self => len (buffer self) <? size)
          (fun _ _ => tt) tt self)
    (fun _ self =>
       let part := slice_to (buffer self) size in
       let self := set_buffer self (slice_from (buffer self) size) in
       let self :=
         set_uncompressed_bytes self (uncompressed_bytes self + len part) in
       Return part self).

(** *** [readline(self, max_bytes=None)] *)
Definition readline_cond (max_bytes : option Z) (l : Z * Z)
  (self : TransparentUnzip) : bool :=
  let '(newline_index, _) := l in
  (newline_index =? -1) &&
  match max_bytes with
  | None => true
  | Some m => len (buffer self) <? m
  end.

Definition readline_body (l : Z * Z) (self : TransparentUnzip) : Z * Z :=
  let '(_, checked) := l in
  (find (buffer self) NL checked, len (buffer self)).

Definition readline (chunk : Z) (max_bytes : option Z)
  (self : TransparentUnzip) : outcome bytes :=
  let newline_index := find (buffer self) NL 0 in
  let checked := len (buffer self) in
  bind (while_chunk chunk (readline_cond max_bytes) readline_body
          (newline_index, checked) self)
    (fun l self =>
       let '(newline_index, _) := l in
       if newline_index =? -1 then
         match max_bytes with
         | None => read chunk (len (buffer self)) self
         | Some m => read chunk m self
         end
       else read chunk (newline_index + 1) self).

(** *** [__iter__(self)]: the object is its own iterator *)
Definition iter (self : TransparentUnzip) : TransparentUnzip := self.

(** *** [next(self)] *)
Definition next (chunk : Z) (self : TransparentUnzip) : outcome bytes :=
  bind (readline chunk None self)
    (fun line self =>
       if is_empty line then Raise StopIteration self else Return line self).

(** *** [start_stats(self)] and [get_stats(self)] *)
Definition start_stats (self : TransparentUnzip) : TransparentUnzip :=
  set_uncompressed_bytes (set_compressed_bytes self 0) 0.

Definition get_stats (self : TransparentUnzip) : Z * Z :=
  (compressed_bytes self, uncompressed_bytes self).

End Model.

Arguments Return {I A} a self.
Arguments Raise {I A} e self.
Arguments Diverge {I A}.
Arguments mkDecompress {I} zst zmode_of unused_data.
Arguments mkTransparentUnzip {I} stream decompressor header_read buffer
  compressed_bytes uncompressed_bytes.

(** ** What a stream holds

    Reference definitions the statements below compare the reader with. *)

Section Reference.
Context {I : Inflater}.

(** Refill until [buffer_chunk] reports that nothing is left. *)
Definition drain (chunk : Z) (self : TransparentUnzip) : outcome unit :=
  while_chunk chunk (fun _ _ => true) (fun _ _ => tt) tt self.

(** Everything the object can still deliver: the buffer once the stream is
    drained, or the exception draining runs into. *)
Definition content (chunk : Z) (self : TransparentUnzip)
  : option (exn + bytes) :=
  match drain chunk self with
  | Return _ self' => Some (inr (buffer self'))
  | Raise e _ => Some (inl e)
  | Diverge => None
  end.

(** No buffered byte and no further data from [buffer_chunk]. *)
Definition exhausted (chunk : Z) (self : TransparentUnzip) : Prop :=
  buffer self = [] /\ buffer_chunk chunk self = Return false self.

(** One gzip member, decoded in one piece by a decompression object of its
    own: [m] is a member when the object reaches the end of its stream on
    the last byte of [m]. *)
Definition gunzip_member (m : bytes) : option bytes :=
  match decompress new_decompressobj m with
  | (Some out, d) =>
      match zmode_of d, unused_data d with
      | StreamEnd, [] => Some (out ++ flush d)
      | _, _ => None
      end
  | (None, _) => None
  end.

Definition gzip_member (m o : bytes) : Prop := gunzip_member m = Some o.

(** Decoding of a whole input, member after member, from the engine state
    [z]; [None] when the engine reports a data error. *)
Fixpoint gunzip_from (z : zstream) (input : bytes) : option bytes :=
  match input with
  | [] => Some (inflate_finish z)
  | b :: rest =>
      match inflate_byte z b with
      | Z_OK out z' => option_map (app out) (gunzip_from z' rest)
      | Z_STREAM_END out z' =>
          option_map (fun t => out ++ inflate_finish z' ++ t)
            match rest with
            | [] => Some []
            | _ :: _ => gunzip_from inflateInit rest
            end
      | Z_DATA_ERROR => None
      end
  end.

Definition gunzip (input : bytes) : option bytes :=
  match input with
  | [] => Some []
  | _ :: _ => gunzip_from inflateInit input
  end.

(** A sequence of [read] calls with the given sizes. *)
Fixpoint read_many (chunk : Z) (sizes : list Z) (self : TransparentUnzip)
  : outcome (list bytes) :=
  match sizes with
  | [] => Return [] self
  | size :: sizes' =>
      bind (read chunk size self) (fun part self =>
      bind (read_many chunk sizes' self) (fun parts self =>
      Return (part :: parts) self))
  end.

(** A method called again and again until it returns [""]. *)
Fixpoint until_empty (f : TransparentUnzip -> outcome bytes) (fuel : nat)
  (self : TransparentUnzip) : outcome (list bytes) :=
  match fuel with
  | O => Diverge
  | S fuel' =>
      bind (f self) (fun part self =>
      if is_empty part then Return [] self
      else bind (until_empty f fuel' self) (fun parts self =>
           Return (part :: parts) self))
  end.

(** [read(size)] until it returns [""]. *)
Definition read_all (fuel : nat) (chunk : Z) (size : Z)
  : TransparentUnzip -> outcome (list bytes) :=
  until_empty (read chunk size) fuel.

(** [readline()] until it returns [""]. *)
Definition readlines (fuel : nat) (chunk : Z)
  : TransparentUnzip -> outcome (list bytes) :=
  until_empty (readline chunk None) fuel.

(** [p] in front of what is left, when something is left. *)
Definition prepend (p : bytes) (x : option (exn + bytes))
  : option (exn + bytes) :=
  match x with
  | Some (inr t) => Some (inr (p ++ t))
  | _ => x
  end.

(** A method that hands out the content from its front: what it returns
    and what is left make up what there was, an empty result means that
    nothing is left, and an exception is the one draining meets. *)
Definition consumes (chunk : Z) (f : TransparentUnzip -> outcome bytes)
  : Prop :=
  forall self,
    match f self with
    | Return part s' =>
        content chunk self = prepend part (content chunk s') /\
        (part = [] -> content chunk s' = Some (inr [])) /\
        (part <> [] ->
         (mu s' < mu self)%nat \/
         (mu s' = mu self /\
          (length (buffer s') < length (buffer self))%nat))
    | Raise e _ => content chunk self = Some (inl e)
    | Diverge => False
    end.

(** What is still to come out of a decompressor and the input [rest] after
    it: the rest of the member the decompressor is in and the members that
    follow.  [None] for a data error and for the decompressors the reader
    never holds. *)
Definition decoder_tail (d : decompressobj) (rest : bytes) : option bytes :=
  match zmode_of d with
  | Running =>
      match unused_data d with
      | [] => gunzip_from (zst d) rest
      | _ :: _ => None
      end
  | StreamEnd =>
      option_map (app (flush d)) (gunzip (unused_data d ++ rest))
  | DataError => None
  end.

(** What is still to come out of a stream known to be compressed. *)
Definition tail_output (self : TransparentUnzip) : option bytes :=
  match decompressor self with
  | None =>
      match stream self with
      | [] => Some []
      | _ :: _ => None
      end
  | Some d => decoder_tail d (stream self)
  end.

(** The decompressors of a stream known to be compressed. *)
Definition decoder_ok (d : decompressobj) : Prop :=
  (zmode_of d = Running /\ unused_data d = []) \/ zmode_of d = StreamEnd.

(** The states of a stream known to be compressed. *)
Definition compressed_state (self : TransparentUnzip) : Prop :=
  header_read self = Some true /\
  forall d, decompressor self = Some d -> decoder_ok d.

(** The first piece of input of a fresh reader. *)
Definition first_chunk (chunk : Z) (s : bytes) : bytes :=
  fst (stream_read chunk s).

Definition nonneg (n : Z) : Prop := 0 <= n.

(** Two runs agree when both return the same bytes or both leave with the
    same exception. *)
Definition same_bytes (a b : outcome (list bytes)) : Prop :=
  match a, b with
  | Return xs _, Return ys _ => concat xs = concat ys
  | Raise e _, Raise e' _ => e = e'
  | _, _ => False
  end.

Definition sum_sizes (sizes : list Z) : Z := fold_right Z.add 0 sizes.

(** The calls a client makes, and a client that makes a list of them one
    after the other, going on after an exception. *)
Inductive call : Type :=
| Read (size : Z)
| Readline (max_bytes : option Z)
| Next.

Definition do_call (chunk : Z) (c : call) (self : TransparentUnzip)
  : outcome bytes :=
  match c with
  | Read size => read chunk size self
  | Readline max_bytes => readline chunk max_bytes self
  | Next => next chunk self
  end.

Fixpoint run_calls (chunk : Z) (calls : list call) (self : TransparentUnzip)
  : list (exn + bytes) * TransparentUnzip :=
  match calls with
  | [] => ([], self)
  | c :: calls' =>
      match do_call chunk c self with
      | Return part self' =>
          let '(rs, self'') := run_calls chunk calls' self' in
          (inr part :: rs, self'')
      | Raise e self' =>
          let '(rs, self'') := run_calls chunk calls' self' in
          (inl e :: rs, self'')
      | Diverge => ([], self)
      end
  end.

(** The bytes handed to the client in a list of results. *)
Fixpoint delivered (rs : list (exn + bytes)) : bytes :=
  match rs with
  | [] => []
  | inr part :: rs' => part ++ delivered rs'
  | inl _ :: rs' => delivered rs'
  end.

Definition is_some {A : Type} (o : option A) : bool :=
  match o with Some _ => true | None => false end.

(** What a method call delivered. *)
Definition delivered_by (m : outcome bytes) : bytes :=
  match m with
  | Return part _ => part
  | _ => []
  end.

(** How the object moves from [self] to [s'] while [out] is delivered: a
    flag that is set stays, a prefix of the stream is taken and counted,
    and the delivered bytes are counted. *)
Definition progress (self s' : TransparentUnzip) (out : bytes) : Prop :=
  (header_read self <> None -> header_read s' = header_read self) /\
  (exists c, stream self = c ++ stream s' /\
     compressed_bytes s' = compressed_bytes self + len c) /\
  uncompressed_bytes s' = uncompressed_bytes self + len out.

(** What a call returns once nothing is left. *)
Definition at_end_result (c : call) : exn + bytes :=
  match c with
  | Next => inl StopIteration
  | _ => inr []
  end.

(** The decompressor is dropped only once a compressed stream has been
    read to its end. *)
Definition decompressor_kept (self : TransparentUnzip) : Prop :=
  decompressor self = None ->
  stream self = [] /\ header_read self = Some true.

(** A line with its terminator: the newline is its last byte and its only
    one. *)
Definition complete_line (line : bytes) : Prop :=
  exists pre, line = pre ++ [NL] /\ ~ In NL pre.

(** [i] is what [s.find("\n")] returns. *)
Definition first_newline (s : bytes) (i : Z) : Prop :=
  (i = -1 /\ ~ In NL s) \/
  (exists pre post, s = pre ++ NL :: post /\ ~ In NL pre /\ i = len pre).

(** The same object with another buffer and other counters. *)
Definition rebuffer (self : TransparentUnzip) (b : bytes) (cb ub : Z)
  : TransparentUnzip :=
  mkTransparentUnzip (stream self) (decompressor self) (header_read self)
    b cb ub.

Definition map_state {A : Type} (f : TransparentUnzip -> TransparentUnzip)
  (m : outcome A) : outcome A :=
  match m with
  | Return a self => Return a (f self)
  | Raise e self => Raise e (f self)
  | Diverge => Diverge
  end.

End Reference.

(** ** An inflate engine for stored gzip members

    The gzip members whose header has no optional field and whose deflate
    blocks are all stored (BTYPE 00), as compression level 0 writes them.
    The engine follows [inflate] of zlib on these: the two identification
    bytes are checked together, then the method with the flags; a stored
    block is its header byte, LEN and NLEN, and LEN literal bytes; the
    trailer is the CRC-32 and the length of the data.  Anything else is
    reported as a data error. *)

Module StoredGzip.
Local Open Scope N_scope.

Definition crc32_bit (c : N) : N :=
  if N.odd c then N.lxor (N.shiftr c 1) 0xEDB88320 else N.shiftr c 1.

Definition crc32_update (crc : N) (b : byte) : N :=
  let c := N.lxor crc (Byte.to_N b) in
  crc32_bit (crc32_bit (crc32_bit (crc32_bit
    (crc32_bit (crc32_bit (crc32_bit (crc32_bit c))))))).

Definition crc32 (data : bytes) : N :=
  N.lxor (fold_left crc32_update data 0xFFFFFFFF) 0xFFFFFFFF.

(** Little-endian value of a byte string. *)
Fixpoint le_value (s : bytes) : N :=
  match s with
  | [] => 0
  | b :: r => Byte.to_N b + 256 * le_value r
  end.

Definition byte_of_N (n : N) : byte :=
  match Byte.of_N (n mod 256) with Some b => b | None => x00 end.

(** The [k] low bytes of [n], little-endian. *)
Fixpoint le_bytes (k : nat) (n : N) : bytes :=
  match k with
  | O => []
  | S k' => byte_of_N n :: le_bytes k' (n / 256)
  end.

Inductive gz_state : Type :=
| GzID1
| GzID2 (id1 : byte)
| GzCM
| GzFLG (cm : byte)
| GzSkip (n : nat)
| GzBlock (crc size : N)
| GzLen (last : bool) (got : bytes) (crc size : N)
| GzStored (last : bool) (todo : N) (crc size : N)
| GzTrailer (got : bytes) (crc size : N)
| GzDone.

Definition after_block (last : bool) (crc size : N) : gz_state :=
  if last then GzTrailer [] crc size else GzBlock crc size.

Definition gz_byte (z : gz_state) (b : byte) : inflate_ret gz_state :=
  match z with
  | GzID1 => Z_OK [] (GzID2 b)
  | GzID2 id1 =>
      if Byte.eqb id1 x1f && Byte.eqb b x8b then Z_OK [] GzCM
      else Z_DATA_ERROR
  | GzCM => Z_OK [] (GzFLG b)
  | GzFLG cm =>
      if Byte.eqb cm x08 && (Byte.eqb b x00 || Byte.eqb b x01)
      then Z_OK [] (GzSkip 6)
      else Z_DATA_ERROR
  | GzSkip n =>
      match n with
      | O | S O => Z_OK [] (GzBlock 0xFFFFFFFF 0)
      | S n' => Z_OK [] (GzSkip n')
      end
  | GzBlock crc size =>
      let v := Byte.to_N b in
      if (N.land (N.shiftr v 1) 3 =? 0)%N
      then Z_OK [] (GzLen (N.odd v) [] crc size)
      else Z_DATA_ERROR
  | GzLen last got crc size =>
      let got' := got ++ [b] in
      if (length got' <? 4)%nat then Z_OK [] (GzLen last got' crc size)
      else
        let n := le_value (firstn 2 got') in
        let nn := le_value (skipn 2 got') in
        if (n =? N.lxor nn 0xFFFF)%N then
          if (n =? 0)%N then Z_OK [] (after_block last crc size)
          else Z_OK [] (GzStored last n crc size)
        else Z_DATA_ERROR
  | GzStored last todo crc size =>
      let crc' := crc32_update crc b in
      let size' := ((size + 1) mod 0x100000000)%N in
      if (todo <=? 1)%N then Z_OK [b] (after_block last crc' size')
      else Z_OK [b] (GzStored last (todo - 1) crc' size')
  | GzTrailer got crc size =>
      let got' := got ++ [b] in
      if (length got' <? 4)%nat then Z_OK [] (GzTrailer got' crc size)
      else if (length got' =? 4)%nat then
        if (le_value got' =? N.lxor crc 0xFFFFFFFF)%N
        then Z_OK [] (GzTrailer got' crc size)
        else Z_DATA_ERROR
      else if (length got' <? 8)%nat then Z_OK [] (GzTrailer got' crc size)
      else
        if (le_value (skipn 4 got') =? size)%N then Z_STREAM_END [] GzDone
        else Z_DATA_ERROR
  | GzDone => Z_STREAM_END [] GzDone
  end.

#[export] Instance engine : Inflater := {
  zstream := gz_state;
  inflateInit := GzID1;
  inflate_byte := gz_byte;
  inflate_finish := fun _ => []
}.

(** A gzip member holding [data] in one stored block (fewer than 65536
    bytes). *)
Definition gzip_stored (data : bytes) : bytes :=
  let n := N.of_nat (length data) in
  [x1f; x8b; x08; x00; x00; x00; x00; x00; x00; xff] ++
  [x01] ++ le_bytes 2 n ++ le_bytes 2 (N.lxor n 0xFFFF) ++ data ++
  le_bytes 4 (crc32 data) ++ le_bytes 4 n.

Definition ascii (s : String.string) : bytes := String.list_byte_of_string s.

End StoredGzip.

(** Inputs of the worked examples. *)
Module Sample.
Import StoredGzip.
Import String.
Local Open Scope string_scope.

Definition abc : bytes := ascii "abc".
Definition foo : bytes := ascii "foo".
Definition bar : bytes := ascii "bar".
Definition foobar : bytes := ascii "foobar".
Definition hi : bytes := ascii "hi".
Definition aaaa_nl : bytes := List.app (ascii "aaaa") [NL].
Definition hello_world : bytes :=
  List.app (ascii "hello") (NL :: ascii "world").

(** Two members one after the other. *)
Definition two_members : bytes := List.app (gzip_stored foo) (gzip_stored bar).

(** The start of a member with a stored block of 1100 bytes, followed by a
    block header of the reserved type 3: the error is met after the first
    1024 bytes and within the first [CHUNK] bytes. *)
Definition bad_block : bytes :=
  List.app [x1f; x8b; x08; x00; x00; x00; x00; x00; x00; xff; x00]
    (List.app (le_bytes 2 1100)
       (List.app (le_bytes 2 (N.lxor 1100 0xFFFF))
          (List.app (List.repeat x61 1100) [x06]))).

(** The state [buffer_chunk] leaves, and the state draining leaves. *)
Definition after_chunk (chunk : Z) (self : TransparentUnzip)
  : TransparentUnzip :=
  match buffer_chunk chunk self with
  | Return _ self' => self'
  | _ => self
  end.

Definition drained (chunk : Z) (s : bytes) : TransparentUnzip :=
  match drain chunk (init s) with
  | Return _ self' => self'
  | _ => init s
  end.

(** The state a call leaves. *)
Definition state_of {A : Type} (m : outcome A) (default : TransparentUnzip)
  : TransparentUnzip :=
  match final_state m with
  | Some self' => self'
  | None => default
  end.

(** A reader of plain text with the text in its buffer, and the same
    reader after the text was read. *)
Definition buffered : TransparentUnzip := after_chunk CHUNK (init hello_world).

Definition finished : TransparentUnzip :=
  state_of (read CHUNK 100 (init hello_world)) (init hello_world).

(** The first 17 bytes of the gzip of ["abc"]: the member breaks off after
    ["ab"]. *)
Definition cut_short : bytes := firstn 17 (gzip_stored abc).

(** The reader of [two_members] between the two members. *)
Definition at_boundary : TransparentUnzip :=
  after_chunk CHUNK (init two_members).

End Sample.

(** * Proofs *)

(** ** Byte strings *)

Lemma len_nonneg (s : bytes) : 0 <= len s.
Proof. unfold len. lia. Qed.

Lemma len_app (s t : bytes) : len (s ++ t) = len s + len t.
Proof. unfold len. rewrite length_app. lia. Qed.

Lemma len_nil : len [] = 0.
Proof. reflexivity. Qed.

Lemma is_empty_true (s : bytes) : is_empty s = true <-> s = [].
Proof. destruct s; simpl; split; congruence. Qed.

Lemma is_empty_false (s : bytes) : is_empty s = false <-> s <> [].
Proof. destruct s; simpl; split; congruence. Qed.

Lemma len_zero (s : bytes) : len s = 0 <-> s = [].
Proof.
  unfold len. destruct s; simpl; split; try congruence; try lia.
Qed.

Lemma slice_split (s : bytes) (n : Z) : slice_to s n ++ slice_from s n = s.
Proof.
  unfold slice_to, slice_from. destruct (0 <=? n); apply firstn_skipn.
Qed.

Lemma slice_to_len (s : bytes) (n : Z) :
  0 <= n -> len (slice_to s n) = Z.min n (len s).
Proof.
  intros Hn. unfold slice_to, len.
  destruct (Z.leb_spec 0 n); [|lia]. rewrite length_firstn. lia.
Qed.

Lemma slice_to_all (s : bytes) (n : Z) : len s <= n -> slice_to s n = s.
Proof.
  intros H. pose proof (len_nonneg s). unfold slice_to.
  destruct (Z.leb_spec 0 n); [|lia].
  apply firstn_all2. unfold len in *. lia.
Qed.

Lemma slice_from_all (s : bytes) (n : Z) : len s <= n -> slice_from s n = [].
Proof.
  intros H. pose proof (len_nonneg s). unfold slice_from.
  destruct (Z.leb_spec 0 n); [|lia].
  apply skipn_all2. unfold len in *. lia.
Qed.

Lemma slice_to_zero (s : bytes) : slice_to s 0 = [].
Proof. reflexivity. Qed.

Lemma slice_from_zero (s : bytes) : slice_from s 0 = s.
Proof. reflexivity. Qed.

Lemma slice_to_firstn (s : bytes) (n : Z) :
  0 <= n -> slice_to s n = firstn (Z.to_nat n) s.
Proof.
  intros H. unfold slice_to. destruct (Z.leb_spec 0 n); [reflexivity|lia].
Qed.

Lemma slice_from_skipn (s : bytes) (n : Z) :
  0 <= n -> slice_from s n = skipn (Z.to_nat n) s.
Proof.
  intros H. unfold slice_from. destruct (Z.leb_spec 0 n); [reflexivity|lia].
Qed.

Lemma stream_read_split (n : Z) (s c r : bytes) :
  stream_read n s = (c, r) -> s = c ++ r.
Proof.
  unfold stream_read. destruct (n <? 0); intros H; inversion H; subst.
  - now rewrite app_nil_r.
  - symmetry. apply firstn_skipn.
Qed.

Lemma stream_read_empty (n : Z) (s r : bytes) :
  stream_read n s = ([], r) -> r = s.
Proof.
  intros H. apply stream_read_split in H. now subst.
Qed.

Lemma stream_read_progress (n : Z) (s c r : bytes) :
  n <> 0 -> s <> [] -> stream_read n s = (c, r) -> c <> [].
Proof.
  unfold stream_read. intros Hn Hs. destruct (Z.ltb_spec n 0) as [Lt|Ge];
    intros H; inversion H; subst; auto.
  destruct s as [|b s]; [congruence|].
  destruct (Z.to_nat n) eqn:E; [lia|]. simpl. congruence.
Qed.

Section Proofs.
Context {I : Inflater}.

(** ** The decompression object *)

Lemma inflate_rest (data : bytes) : forall z o zf m r,
  inflate z data = (o, zf, m, r) ->
  (length r <= length data)%nat /\
  (data <> [] -> (length r < length data)%nat).
Proof.
  induction data as [|b rest IH]; simpl; intros z o zf m r H.
  - inversion H; subst. split; [simpl; lia | congruence].
  - destruct (inflate_byte z b) as [out z'|out z'|].
    + destruct (inflate z' rest) as [[[o' zf'] m'] r'] eqn:E.
      inversion H; subst. apply IH in E. destruct E as [E _].
      split; [|intros _]; simpl; lia.
    + inversion H; subst. split; [|intros _]; simpl; lia.
    + inversion H; subst. split; [|intros _]; simpl; lia.
Qed.

(** [decompress] never shortens [unused_data], and adds at most the
    input; a running object consumes at least one byte. *)
Lemma decompress_unused (d d' : decompressobj) (c : bytes) res :
  decompress d c = (res, d') ->
  (length (unused_data d') <= length (unused_data d) + length c)%nat /\
  (zmode_of d = Running -> c <> [] ->
   (length (unused_data d') < length (unused_data d) + length c)%nat) /\
  (res = None -> unused_data d' = unused_data d).
Proof.
  unfold decompress. destruct (zmode_of d) eqn:M.
  - destruct (inflate (zst d) c) as [[[o z] m] r] eqn:E.
    apply inflate_rest in E. destruct E as [E1 E2].
    destruct m; intros H; inversion H; subst; simpl;
      rewrite ?length_app; repeat split; try congruence; try lia;
      intros _ Hc; specialize (E2 Hc); lia.
  - intros H; inversion H; subst; simpl. rewrite length_app.
    repeat split; try congruence; lia.
  - intros H; inversion H; subst. repeat split; try congruence; lia.
Qed.

Lemma new_decompressobj_unused : unused_data new_decompressobj = [].
Proof. reflexivity. Qed.

(** ** [buffer_chunk] *)

Lemma buffer_chunk_returns (chunk : Z) (self : TransparentUnzip) :
  buffer_chunk chunk self <> Diverge.
Proof.
  unfold buffer_chunk, buffer_compressed.
  destruct (next_compressed chunk self) as [c s].
  destruct (is_empty c).
  - destruct (decompressor s) as [d|]; [|congruence].
    destruct (header_read s) as [[|]|]; congruence.
  - destruct (header_read s) as [[|]|]; try congruence;
      (destruct (decompressor s) as [d|]; [|congruence]);
      destruct (decompress d c) as [[o|] d']; congruence.
Qed.

(** What [next_compressed] does, by cases. *)
Lemma next_compressed_cases (chunk : Z) (self : TransparentUnzip) c s :
  next_compressed chunk self = (c, s) ->
  (exists d, decompressor self = Some d /\ unused_data d <> [] /\
     c = unused_data d /\
     s = set_decompressor (set_buffer self (buffer self ++ flush d))
           (Some new_decompressobj)) \/
  ((forall d, decompressor self = Some d -> unused_data d = []) /\
   exists rest, stream_read chunk (stream self) = (c, rest) /\
     s = set_compressed_bytes (set_stream self rest)
           (compressed_bytes self + len c)).
Proof.
  unfold next_compressed, pull_chunk. intros H.
  destruct (decompressor self) as [d|] eqn:D.
  - destruct (Z.ltb_spec 0 (len (unused_data d))) as [L|L].
    + left. exists d. inversion H; subst. repeat split; auto.
      intros E. rewrite E in L. simpl in L. unfold len in L. simpl in L. lia.
    + right. split.
      * intros d0 E. inversion E; subst. apply len_zero.
        pose proof (len_nonneg (unused_data d0)). lia.
      * destruct (stream_read chunk (stream self)) as [c0 rest].
        exists rest. inversion H; subst. auto.
  - right. split; [congruence|].
    destruct (stream_read chunk (stream self)) as [c0 rest].
    exists rest. inversion H; subst. auto.
Qed.

Ltac bc_cases H :=
  match type of H with
  | buffer_chunk ?chunk ?self = _ =>
      unfold buffer_chunk, buffer_compressed in H;
      let c := fresh "c" in let s := fresh "s" in
      let NC := fresh "NC" in let EC := fresh "EC" in
      destruct (next_compressed chunk self) as [c s] eqn:NC;
      apply next_compressed_cases in NC;
      destruct (is_empty c) eqn:EC;
      [apply is_empty_true in EC | apply is_empty_false in EC]
  end.

(** A successful refill uses up some of the input. *)
Lemma buffer_chunk_mu (chunk : Z) (self self' : TransparentUnzip) :
  buffer_chunk chunk self = Return true self' -> (mu self' < mu self)%nat.
Proof.
  intros H. bc_cases H.
  - (* no input left *)
    destruct NC as [(d & D & U & C & S)|(U & rest & R & S)];
      [congruence|].
    subst c. apply stream_read_empty in R. subst rest s. simpl in H.
    destruct (decompressor self) as [d|] eqn:D; [|congruence].
    destruct (header_read self) as [[|]|]; try congruence.
    inversion H; subst. unfold mu; simpl. rewrite D. lia.
  - destruct NC as [(d & D & U & C & S)|(U & rest & R & S)].
    + (* recycled input *)
      subst s; simpl in H. unfold mu at 2. rewrite D.
      assert (L : (0 < length c)%nat) by (destruct c; simpl; [congruence|lia]).
      rewrite <- C.
      destruct (header_read self) as [[|]|];
        try (destruct (decompress new_decompressobj c) as [[o|] d'] eqn:E;
             apply decompress_unused in E; destruct E as (E1 & E2 & E3);
             simpl in E1, E2; specialize (E2 eq_refl EC);
             try specialize (E3 eq_refl));
        inversion H; subst; unfold mu; simpl; lia.
    + (* input from the stream *)
      subst s; simpl in H. apply stream_read_split in R.
      assert (L : (0 < length c)%nat) by (destruct c; simpl; [congruence|lia]).
      assert (LS : length (stream self) = (length c + length rest)%nat)
        by (rewrite R, length_app; reflexivity).
      unfold mu at 2. rewrite LS.
      destruct (header_read self) as [[|]|].
      * destruct (decompressor self) as [d|] eqn:D; [|congruence].
        specialize (U d eq_refl).
        destruct (decompress d c) as [[o|] d'] eqn:E; [|congruence].
        apply decompress_unused in E. destruct E as (E1 & _).
        rewrite U in E1. simpl in E1.
        inversion H; subst. unfold mu; simpl. lia.
      * inversion H; subst. unfold mu; simpl.
        destruct (decompressor self); lia.
      * destruct (decompressor self) as [d|] eqn:D; [|congruence].
        specialize (U d eq_refl).
        destruct (decompress d c) as [[o|] d'] eqn:E;
          apply decompress_unused in E; destruct E as (E1 & _);
          rewrite U in E1; simpl in E1;
          inversion H; subst; unfold mu; simpl; lia.
Qed.

(** A refill that reports the end changes nothing. *)
Lemma buffer_chunk_false (chunk : Z) (self self' : TransparentUnzip) :
  buffer_chunk chunk self = Return false self' -> self' = self.
Proof.
  intros H. bc_cases H.
  - destruct NC as [(d & D & U & C & S)|(U & rest & R & S)];
      [congruence|].
    subst c. apply stream_read_empty in R. subst rest s. simpl in H.
    rewrite len_nil, Z.add_0_r in H.
    destruct self as [st dec hdr buf cb ub]; simpl in *.
    destruct dec as [d|]; [destruct hdr as [[|]|]|];
      inversion H; reflexivity.
  - destruct (header_read s) as [[|]|]; try congruence;
      (destruct (decompressor s) as [d|]; [|congruence]);
      destruct (decompress d c) as [[o|] d']; congruence.
Qed.

(** ** The loops *)

Section While.
Context {L : Type}.
Variable chunk : Z.
Variable cond : L -> TransparentUnzip -> bool.
Variable body : L -> TransparentUnzip -> L.

Lemma while_chunk_fuel_enough (fuel : nat) : forall fuel' l self,
  (mu self < fuel)%nat -> (mu self < fuel')%nat ->
  while_chunk_fuel fuel chunk cond body l self =
  while_chunk_fuel fuel' chunk cond body l self.
Proof.
  induction fuel as [|fuel IH]; intros fuel' l self Hf Hf'; [lia|].
  destruct fuel' as [|fuel']; [lia|].
  simpl. destruct (cond l self); [|reflexivity].
  destruct (buffer_chunk chunk self) as [[|] self'|e self'|] eqn:B;
    try reflexivity.
  apply buffer_chunk_mu in B. apply IH; lia.
Qed.

(** The loop, one iteration at a time. *)
Lemma while_chunk_unfold (l : L) (self : TransparentUnzip) :
  while_chunk chunk cond body l self =
  if cond l self then
    match buffer_chunk chunk self with
    | Return true self' => while_chunk chunk cond body (body l self') self'
    | Return false self' => Return l self'
    | Raise e self' => Raise e self'
    | Diverge => Diverge
    end
  else Return l self.
Proof.
  unfold while_chunk at 1. simpl. destruct (cond l self); [|reflexivity].
  destruct (buffer_chunk chunk self) as [[|] self'|e self'|] eqn:B;
    try reflexivity.
  apply buffer_chunk_mu in B. unfold while_chunk.
  apply while_chunk_fuel_enough; lia.
Qed.

(** Induction over the iterations of a loop. *)
Lemma while_chunk_ind (P : L -> TransparentUnzip -> outcome L -> Prop) :
  (forall l self, cond l self = false -> P l self (Return l self)) ->
  (forall l self, cond l self = true ->
     buffer_chunk chunk self = Return false self ->
     P l self (Return l self)) ->
  (forall l self e self', cond l self = true ->
     buffer_chunk chunk self = Raise e self' ->
     P l self (Raise e self')) ->
  (forall l self self' r, cond l self = true ->
     buffer_chunk chunk self = Return true self' ->
     P (body l self') self' r -> P l self r) ->
  forall l self, P l self (while_chunk chunk cond body l self).
Proof.
  intros Hstop Hend Hraise Hstep l self.
  remember (mu self) as n eqn:Hn. revert l self Hn.
  induction n as [n IH] using lt_wf_ind. intros l self Hn.
  rewrite while_chunk_unfold. destruct (cond l self) eqn:C; [|auto].
  destruct (buffer_chunk chunk self) as [[|] self'|e self'|] eqn:B.
  - apply Hstep with self'; auto.
    eapply IH; [|reflexivity]. apply buffer_chunk_mu in B. lia.
  - pose proof (buffer_chunk_false _ _ _ B). subst self'. auto.
  - auto.
  - exfalso. eapply buffer_chunk_returns; eauto.
Qed.

(** A loop always comes back. *)
Lemma while_chunk_returns (l : L) (self : TransparentUnzip) :
  while_chunk chunk cond body l self <> Diverge.
Proof.
  apply (while_chunk_ind (fun _ _ r => r <> Diverge)); intros; congruence.
Qed.

End While.

(** Case analysis of a call of [buffer_chunk] on [self]. *)
Ltac bc_destruct self :=
  unfold buffer_chunk, buffer_compressed, next_compressed, pull_chunk;
  let D := fresh "D" in
  destruct (decompressor self) as [?d|] eqn:D;
  [destruct (0 <? len (unused_data _)) eqn:?U|];
  try destruct (stream_read _ (stream self)) as [?c ?rest] eqn:?R;
  cbn -[Z.add Z.sub decompress flush new_decompressobj];
  rewrite ?D;
  (destruct (is_empty _) eqn:?EC;
   cbn -[Z.add Z.sub decompress flush new_decompressobj]);
  destruct (header_read self) as [[|]|] eqn:?HR;
  cbn -[Z.add Z.sub decompress flush new_decompressobj];
  try (destruct (decompress _ _) as [[?o|] ?d'] eqn:?DE;
       cbn -[Z.add Z.sub decompress flush new_decompressobj]).

(** What a call of [buffer_chunk] can change, however it ends: it keeps a
    flag that is set, appends to the buffer, takes a prefix off the stream
    and counts it, and leaves the count of delivered bytes alone. *)
Lemma buffer_chunk_effect (chunk : Z) (self s' : TransparentUnzip) :
  final_state (buffer_chunk chunk self) = Some s' ->
  (header_read self <> None -> header_read s' = header_read self) /\
  (exists added, buffer s' = buffer self ++ added) /\
  (exists c, stream self = c ++ stream s' /\
     compressed_bytes s' = compressed_bytes self + len c) /\
  uncompressed_bytes s' = uncompressed_bytes self.
Proof.
  bc_destruct self; intros H; inversion H; subst; clear H; cbn;
    (split; [congruence|]);
    (split;
     [rewrite <- ?app_assoc;
      first [eexists; reflexivity | exists []; symmetry; apply app_nil_r]|]);
    (split; [|reflexivity]);
    first [ apply stream_read_split in R; eexists; split; [exact R|reflexivity]
          | exists []; rewrite len_nil; split; [reflexivity|lia] ].
Qed.

(** [buffer_chunk] looks at the stream, the decompressor and the flag
    only: with another buffer and other counters it does the same, appends
    the same bytes and counts the same input. *)
Lemma buffer_chunk_frame (chunk : Z) (self : TransparentUnzip)
  (b : bytes) (cb ub : Z) :
  buffer_chunk chunk (rebuffer self b cb ub) =
  map_state
    (fun s' =>
       rebuffer s' (b ++ skipn (length (buffer self)) (buffer s'))
         (cb + (compressed_bytes s' - compressed_bytes self)) ub)
    (buffer_chunk chunk self).
Proof.
  assert (K : forall x y : bytes, skipn (length x) (x ++ y) = y).
  { intros x y. rewrite skipn_app, skipn_all, Nat.sub_diag. reflexivity. }
  assert (K0 : forall x : bytes, skipn (length x) x = []).
  { intros x. apply skipn_all. }
  unfold rebuffer.
  unfold buffer_chunk, buffer_compressed, next_compressed, pull_chunk.
  cbn -[Z.add Z.sub decompress flush new_decompressobj].
  destruct (decompressor self) as [d|] eqn:D;
    [destruct (0 <? len (unused_data d)) eqn:U|];
    try destruct (stream_read chunk (stream self)) as [c rest] eqn:R;
    cbn -[Z.add Z.sub decompress flush new_decompressobj skipn];
    rewrite ?D;
    (destruct (is_empty _) eqn:EC;
     cbn -[Z.add Z.sub decompress flush new_decompressobj skipn]);
    destruct (header_read self) as [[|]|] eqn:HR;
    cbn -[Z.add Z.sub decompress flush new_decompressobj skipn];
    try (destruct (decompress _ _) as [[o|] d'] eqn:DE;
         cbn -[Z.add Z.sub decompress flush new_decompressobj skipn]);
    unfold set_buffer, set_decompressor, set_header_read,
      set_compressed_bytes, set_stream;
    cbn -[Z.add Z.sub decompress flush new_decompressobj skipn];
    rewrite <- ?app_assoc, ?K, ?K0, ?app_nil_r;
    repeat f_equal; first [lia | congruence].
Qed.

(** ** Progress of the methods *)

Lemma progress_refl (self : TransparentUnzip) : progress self self [].
Proof.
  repeat split; auto.
  - exists []. rewrite len_nil. split; [reflexivity|lia].
  - rewrite len_nil. lia.
Qed.

Lemma progress_trans (a b c : TransparentUnzip) (o1 o2 : bytes) :
  progress a b o1 -> progress b c o2 -> progress a c (o1 ++ o2).
Proof.
  intros (H1 & (c1 & S1 & C1) & U1) (H2 & (c2 & S2 & C2) & U2).
  repeat split.
  - intros N. rewrite H2; rewrite H1; auto.
  - exists (c1 ++ c2). rewrite len_app, S1, S2, C2, C1, <- app_assoc.
    split; [reflexivity|lia].
  - rewrite len_app. lia.
Qed.

Lemma buffer_chunk_progress (chunk : Z) (self s' : TransparentUnzip) :
  final_state (buffer_chunk chunk self) = Some s' -> progress self s' [].
Proof.
  intros H. apply buffer_chunk_effect in H.
  destruct H as (H1 & _ & H3 & H4). repeat split; auto.
  rewrite len_nil. lia.
Qed.

Lemma while_chunk_progress {L : Type} (chunk : Z)
  (cond : L -> TransparentUnzip -> bool)
  (body : L -> TransparentUnzip -> L) (l : L) (self : TransparentUnzip) :
  forall s', final_state (while_chunk chunk cond body l self) = Some s' ->
  progress self s' [].
Proof.
  apply (while_chunk_ind chunk cond body
           (fun _ self r => forall s', final_state r = Some s' ->
                                       progress self s' [])).
  - intros l0 s0 _ s' H. inversion H; subst. apply progress_refl.
  - intros l0 s0 _ _ s' H. inversion H; subst. apply progress_refl.
  - intros l0 s0 e s1 _ B s' H. inversion H; subst.
    apply buffer_chunk_progress with chunk. now rewrite B.
  - intros l0 s0 s1 r _ B IH s' H.
    change (@nil byte) with (@nil byte ++ @nil byte).
    apply progress_trans with s1; [|auto].
    apply buffer_chunk_progress with chunk. now rewrite B.
Qed.

Lemma read_progress (chunk size : Z) (self s' : TransparentUnzip) :
  final_state (read chunk size self) = Some s' ->
  progress self s' (delivered_by (read chunk size self)).
Proof.
  unfold read.
  pose proof (while_chunk_progress chunk
                (fun _ self => len (buffer self) <? size)
                (fun _ _ => tt) tt self) as W.
  destruct (while_chunk _ _ _ _ _) as [[] s1|e s1|]; simpl; intros H;
    inversion H; subst; clear H.
  - specialize (W s1 eq_refl).
    destruct W as (H1 & H2 & H3). rewrite len_nil in H3.
    repeat split; simpl; auto. lia.
  - auto.
Qed.

Lemma readline_progress (chunk : Z) (max_bytes : option Z)
  (self s' : TransparentUnzip) :
  final_state (readline chunk max_bytes self) = Some s' ->
  progress self s' (delivered_by (readline chunk max_bytes self)).
Proof.
  unfold readline.
  pose proof (while_chunk_progress chunk (readline_cond max_bytes)
                readline_body (find (buffer self) NL 0, len (buffer self))
                self) as W.
  destruct (while_chunk _ _ _ _ _) as [[ni ck] s1|e s1|]; simpl; intros H.
  - specialize (W s1 eq_refl).
    change (delivered_by ?m) with (@nil byte ++ delivered_by m).
    apply progress_trans with s1; [exact W|].
    destruct (ni =? -1); [destruct max_bytes|]; now apply read_progress.
  - inversion H; subst. auto.
  - discriminate.
Qed.

Lemma next_progress (chunk : Z) (self s' : TransparentUnzip) :
  final_state (next chunk self) = Some s' ->
  progress self s' (delivered_by (next chunk self)).
Proof.
  unfold next.
  pose proof (readline_progress chunk None self) as W.
  destruct (readline chunk None self) as [line s1|e s1|]; simpl in *.
  - destruct line as [|b line]; simpl; intros H; inversion H; subst; auto.
  - intros H; inversion H; subst; auto.
  - discriminate.
Qed.

Lemma do_call_progress (chunk : Z) (c : call) (self s' : TransparentUnzip) :
  final_state (do_call chunk c self) = Some s' ->
  progress self s' (delivered_by (do_call chunk c self)).
Proof.
  destruct c; simpl.
  - apply read_progress.
  - apply readline_progress.
  - apply next_progress.
Qed.

Lemma run_calls_progress (chunk : Z) (calls : list call) :
  forall self rs s',
  run_calls chunk calls self = (rs, s') -> progress self s' (delivered rs).
Proof.
  induction calls as [|c calls IH]; simpl; intros self rs s' H.
  - inversion H; subst. apply progress_refl.
  - pose proof (do_call_progress chunk c self) as P.
    destruct (do_call chunk c self) as [part s1|e s1|]; simpl in P.
    + destruct (run_calls chunk calls s1) as [rs1 s2] eqn:E.
      inversion H; subst. simpl.
      apply progress_trans with s1; auto.
    + destruct (run_calls chunk calls s1) as [rs1 s2] eqn:E.
      inversion H; subst. simpl.
      change (delivered rs1) with ([] ++ delivered rs1).
      apply progress_trans with s1; auto.
    + inversion H; subst. apply progress_refl.
Qed.

(** ** [read] *)

Lemma read_loop_exit (chunk size : Z) (self : TransparentUnzip) :
  forall s1,
  while_chunk chunk (fun _ s => len (buffer s) <? size) (fun _ _ => tt)
    tt self = Return tt s1 ->
  size <= len (buffer s1) \/ buffer_chunk chunk s1 = Return false s1.
Proof.
  apply (while_chunk_ind chunk (fun _ s => len (buffer s) <? size)
           (fun _ _ => tt)
           (fun _ _ r => forall s1, r = Return tt s1 ->
              size <= len (buffer s1) \/
              buffer_chunk chunk s1 = Return false s1)).
  - intros l s0 C s1 H. inversion H; subst. left.
    apply Z.ltb_ge in C. exact C.
  - intros l s0 _ B s1 H. inversion H; subst. now right.
  - intros; discriminate.
  - intros l s0 s1 r _ _ IH s2 H. auto.
Qed.

(** A returning [read] is the loop followed by the two slices. *)
Lemma read_inv (chunk size : Z) (self s' : TransparentUnzip) (part : bytes) :
  read chunk size self = Return part s' ->
  exists s1,
    while_chunk chunk (fun _ s => len (buffer s) <? size) (fun _ _ => tt)
      tt self = Return tt s1 /\
    part = slice_to (buffer s1) size /\
    s' = rebuffer s1 (slice_from (buffer s1) size) (compressed_bytes s1)
           (uncompressed_bytes s1 + len part).
Proof.
  unfold read.
  destruct (while_chunk _ _ _ _ _) as [[] s1|e s1|]; simpl; intros H;
    inversion H; subst.
  exists s1. repeat split.
Qed.

Lemma read_returns (chunk size : Z) (self : TransparentUnzip) :
  read chunk size self <> Diverge.
Proof.
  unfold read.
  pose proof (while_chunk_returns chunk
                (fun _ s => len (buffer s) <? size) (fun _ _ => tt)
                tt self) as W.
  destruct (while_chunk _ _ _ _ _); simpl; congruence.
Qed.

Lemma rebuffer_same (self : TransparentUnzip) :
  rebuffer self (buffer self) (compressed_bytes self)
    (uncompressed_bytes self) = self.
Proof. destruct self; reflexivity. Qed.

(** Refilling is at its end for every buffer and all counters alike. *)
Lemma buffer_chunk_false_frame (chunk : Z) (self : TransparentUnzip)
  (b : bytes) (cb ub : Z) :
  buffer_chunk chunk self = Return false self ->
  buffer_chunk chunk (rebuffer self b cb ub) =
  Return false (rebuffer self b cb ub).
Proof.
  intros H. rewrite buffer_chunk_frame, H. simpl.
  rewrite skipn_all, app_nil_r, Z.sub_diag, Z.add_0_r. reflexivity.
Qed.

(** At the end of refilling the stream is empty. *)
Lemma buffer_chunk_false_stream (chunk : Z) (self s' : TransparentUnzip) :
  chunk <> 0 -> buffer_chunk chunk self = Return false s' ->
  stream self = [].
Proof.
  intros Hc H. bc_cases H.
  - destruct NC as [(d & D & U & C & S)|(U & rest & R & S)];
      [congruence|].
    subst c. destruct (stream self) as [|b r] eqn:E; [reflexivity|].
    exfalso. eapply stream_read_progress; eauto. congruence.
  - destruct (header_read s) as [[|]|]; try congruence;
      (destruct (decompressor s) as [d|]; [|congruence]);
      destruct (decompress d c) as [[o|] d']; congruence.
Qed.

(** A short [read] leaves an exhausted object. *)
Lemma read_short (chunk size : Z) (self s' : TransparentUnzip)
  (part : bytes) :
  0 <= size -> read chunk size self = Return part s' ->
  len part <= size /\
  (len part < size -> exhausted chunk s' /\ (chunk <> 0 -> stream s' = [])).
Proof.
  intros Hs H. apply read_inv in H. destruct H as (s1 & W & P & S).
  pose proof (slice_to_len (buffer s1) size Hs) as LP. rewrite <- P in LP.
  split; [lia|]. intros Short.
  apply read_loop_exit in W. destruct W as [W|W]; [lia|].
  assert (Sf : slice_from (buffer s1) size = []).
  { apply slice_from_all. lia. }
  rewrite Sf in S. subst s'. split; [split|].
  - reflexivity.
  - now apply buffer_chunk_false_frame.
  - intros Hc. simpl. eapply buffer_chunk_false_stream; eauto.
Qed.

Lemma read_nothing (chunk : Z) (self : TransparentUnzip) :
  read chunk 0 self = Return [] self.
Proof.
  unfold read. rewrite while_chunk_unfold.
  pose proof (len_nonneg (buffer self)) as L.
  destruct (Z.ltb_spec (len (buffer self)) 0) as [C|C]; [lia|].
  simpl. rewrite slice_to_zero, slice_from_zero, len_nil, Z.add_0_r.
  destruct self; reflexivity.
Qed.

(** Claim C1, amended.  A call [read(size)] with [size >= 0] comes back,
    and when it returns: the result has at most [size] bytes; it has fewer
    only when the source is exhausted (nothing is buffered, refilling
    reports no more data and the stream is at its end); and for [size > 0]
    it is empty only when the source is exhausted. *)
Theorem read_bounded (chunk size : Z) (self : TransparentUnzip) :
  0 <= size ->
  read chunk size self <> Diverge /\
  forall part s', read chunk size self = Return part s' ->
    len part <= size /\
    (len part < size ->
     exhausted chunk s' /\ (chunk <> 0 -> stream s' = [])) /\
    (0 < size -> part = [] ->
     exhausted chunk s' /\ (chunk <> 0 -> stream s' = [])).
Proof.
  intros Hs. split; [apply read_returns|].
  intros part s' H.
  destruct (read_short _ _ _ _ _ Hs H) as [A1 A2].
  split; [exact A1|]. split; [exact A2|].
  intros Pos E. apply A2. subst part. rewrite len_nil. lia.
Qed.

(** Claim C8.  [read(0)] returns the empty string and leaves the whole
    object as it was: the stream, the buffer, the decompressor, the flag
    and both counters. *)
Theorem read_zero (chunk : Z) (self : TransparentUnzip) :
  read chunk 0 self = Return [] self.
Proof. apply read_nothing. Qed.

(** ** The counters *)

Lemma buffer_chunk_recycle (chunk : Z) (self s' : TransparentUnzip)
  (d : decompressobj) :
  decompressor self = Some d -> unused_data d <> [] ->
  final_state (buffer_chunk chunk self) = Some s' ->
  stream s' = stream self /\ compressed_bytes s' = compressed_bytes self /\
  (header_read self = Some true -> header_read s' = Some true).
Proof.
  intros D U.
  assert (U' : (0 <? len (unused_data d)) = true).
  { apply Z.ltb_lt. pose proof (len_nonneg (unused_data d)).
    destruct (Z.eq_dec (len (unused_data d)) 0) as [E|E]; [|lia].
    apply len_zero in E. congruence. }
  unfold buffer_chunk, buffer_compressed, next_compressed. rewrite D, U'.
  cbn -[decompress flush new_decompressobj].
  destruct (is_empty (unused_data d)) eqn:EC.
  { apply is_empty_true in EC. congruence. }
  destruct (header_read self) as [[|]|] eqn:HR;
    try (destruct (decompress _ _) as [[o|] d']);
    cbn; intros H; inversion H; subst; cbn; repeat split; congruence.
Qed.

(** Claim C9.  [start_stats()] sets both counters to zero and changes
    nothing else; [get_stats()] right after it is [(0, 0)]; and after any
    calls made since, it is the number of bytes taken from the stream and
    the number of bytes delivered to the caller. *)
Theorem stats_reset_and_snapshot (chunk : Z) (self : TransparentUnzip)
  (calls : list call) :
  let s0 := start_stats self in
  let result := run_calls chunk calls s0 in
  (stream s0 = stream self /\ decompressor s0 = decompressor self /\
   header_read s0 = header_read self /\ buffer s0 = buffer self) /\
  (compressed_bytes s0 = 0 /\ uncompressed_bytes s0 = 0) /\
  get_stats s0 = (0, 0) /\
  get_stats (snd result) =
    (len (stream self) - len (stream (snd result)),
     len (delivered (fst result))).
Proof.
  cbv zeta. repeat split.
  destruct (run_calls chunk calls (start_stats self)) as [rs s'] eqn:E.
  apply run_calls_progress in E. destruct E as (_ & (c & S & C) & U).
  simpl in *. unfold get_stats. rewrite S, len_app, C, U. f_equal; lia.
Qed.

(** Claim C10.  However a call of [buffer_chunk] ends, the counter of
    compressed bytes has grown by the number of bytes the call took from
    the stream; when the call recycles the bytes a finished decompressor
    left over, it takes nothing from the stream and the counter stays.
    So after any calls the counter has grown by the number of bytes that
    left the stream. *)
Theorem compressed_bytes_counts_once (chunk : Z)
  (self s' : TransparentUnzip) :
  final_state (buffer_chunk chunk self) = Some s' ->
  (exists c, stream self = c ++ stream s' /\
     compressed_bytes s' = compressed_bytes self + len c) /\
  ((exists d, decompressor self = Some d /\ unused_data d <> []) ->
   stream s' = stream self /\ compressed_bytes s' = compressed_bytes self) /\
  (forall calls,
     compressed_bytes (snd (run_calls chunk calls self)) =
     compressed_bytes self +
     (len (stream self) - len (stream (snd (run_calls chunk calls self))))).
Proof.
  intros H. split; [|split].
  - apply buffer_chunk_effect in H. tauto.
  - intros (d & D & U).
    destruct (buffer_chunk_recycle chunk self s' d D U H) as (A & B & _).
    auto.
  - intros calls.
    destruct (run_calls chunk calls self) as [rs s2] eqn:E.
    apply run_calls_progress in E. destruct E as (_ & (c & S & C) & _).
    simpl. rewrite S at 1. rewrite len_app, C. lia.
Qed.

(** ** The flag *)

Lemma buffer_chunk_first_decode (chunk : Z) (self s' : TransparentUnzip) :
  header_read self = None ->
  final_state (buffer_chunk chunk self) = Some s' ->
  header_read s' =
    let '(c, s1) := next_compressed chunk self in
    match decompressor s1 with
    | Some d =>
        if is_empty c then None
        else Some (is_some (fst (decompress d c)))
    | None => None
    end.
Proof.
  intros HN. unfold buffer_chunk, buffer_compressed.
  destruct (next_compressed chunk self) as [c s1] eqn:NC.
  assert (H1 : header_read s1 = None).
  { apply next_compressed_cases in NC.
    destruct NC as [(d & D & U & C & S)|(U & rest & R & S)]; subst s1; auto. }
  rewrite H1. destruct (is_empty c).
  - destruct (decompressor s1); intros H; inversion H; subst; auto.
  - destruct (decompressor s1) as [d|].
    + destruct (decompress d c) as [[o|] d']; simpl;
        intros H; inversion H; subst; reflexivity.
    + intros H; inversion H; subst; auto.
Qed.

(** Claim C6.  The flag starts unknown.  A call of [buffer_chunk] keeps a
    flag that is set; from unknown it leaves it unknown when there is no
    input, and otherwise sets it to true when the first [decompress]
    succeeds and to false when it fails.  No sequence of [read],
    [readline] and [next] calls and no [start_stats] changes a flag that
    is set, and crossing a member boundary leaves it true. *)
Theorem header_read_one_way (chunk : Z) :
  (forall s, header_read (init s) = None) /\
  (forall self s',
     final_state (buffer_chunk chunk self) = Some s' ->
     match header_read self with
     | Some b => header_read s' = Some b
     | None =>
         header_read s' =
           let '(c, s1) := next_compressed chunk self in
           match decompressor s1 with
           | Some d =>
               if is_empty c then None
               else Some (is_some (fst (decompress d c)))
           | None => None
           end
     end) /\
  (forall calls self,
     header_read self <> None ->
     header_read (snd (run_calls chunk calls self)) = header_read self) /\
  (forall self,
     header_read (start_stats self) = header_read self /\
     get_stats self = (compressed_bytes self, uncompressed_bytes self)) /\
  (forall self d s',
     decompressor self = Some d -> unused_data d <> [] ->
     header_read self = Some true ->
     final_state (buffer_chunk chunk self) = Some s' ->
     header_read s' = Some true).
Proof.
  split; [reflexivity|]. split; [|split; [|split]].
  - intros self s' H. destruct (header_read self) as [b|] eqn:E.
    + apply buffer_chunk_effect in H. destruct H as (H & _).
      rewrite H; congruence.
    + now apply buffer_chunk_first_decode.
  - intros calls self N.
    destruct (run_calls chunk calls self) as [rs s'] eqn:E.
    apply run_calls_progress in E. destruct E as (E & _). simpl. auto.
  - intros self. split; reflexivity.
  - intros self d s' D U T H.
    destruct (buffer_chunk_recycle chunk self s' d D U H) as (_ & _ & A).
    auto.
Qed.

(** ** The content of a stream *)

Lemma drain_unfold (chunk : Z) (self : TransparentUnzip) :
  drain chunk self =
  match buffer_chunk chunk self with
  | Return true self' => drain chunk self'
  | Return false self' => Return tt self'
  | Raise e self' => Raise e self'
  | Diverge => Diverge
  end.
Proof.
  unfold drain. rewrite while_chunk_unfold at 1. reflexivity.
Qed.

Lemma content_true (chunk : Z) (self s1 : TransparentUnzip) :
  buffer_chunk chunk self = Return true s1 ->
  content chunk self = content chunk s1.
Proof. intros H. unfold content. rewrite drain_unfold, H. reflexivity. Qed.

Lemma content_false (chunk : Z) (self s1 : TransparentUnzip) :
  buffer_chunk chunk self = Return false s1 ->
  content chunk self = Some (inr (buffer self)).
Proof.
  intros H. unfold content. rewrite drain_unfold, H.
  apply buffer_chunk_false in H. now subst.
Qed.

Lemma content_raise (chunk : Z) (self s1 : TransparentUnzip) (e : exn) :
  buffer_chunk chunk self = Raise e s1 ->
  content chunk self = Some (inl e).
Proof. intros H. unfold content. rewrite drain_unfold, H. reflexivity. Qed.

Lemma content_exhausted (chunk : Z) (self : TransparentUnzip) :
  exhausted chunk self -> content chunk self = Some (inr []).
Proof.
  intros [B F]. rewrite (content_false _ _ _ F), B. reflexivity.
Qed.

Lemma prepend_nil (x : option (exn + bytes)) : prepend [] x = x.
Proof. destruct x as [[e|t]|]; reflexivity. Qed.

Lemma prepend_app (p q : bytes) (x : option (exn + bytes)) :
  prepend (p ++ q) x = prepend p (prepend q x).
Proof. destruct x as [[e|t]|]; simpl; rewrite <- ?app_assoc; reflexivity. Qed.

(** Bytes in front of the buffer stay in front of the content. *)
Lemma content_frame (chunk : Z) : forall self p b cb ub,
  buffer self = p ++ b ->
  content chunk self = prepend p (content chunk (rebuffer self b cb ub)).
Proof.
  intros self. remember (mu self) as n eqn:Hn. revert self Hn.
  induction n as [n IH] using lt_wf_ind. intros self Hn p b cb ub Hb.
  pose proof (buffer_chunk_frame chunk self b cb ub) as F.
  destruct (buffer_chunk chunk self) as [[|] s1|e s1|] eqn:B; simpl in F.
  - rewrite (content_true _ _ _ B), (content_true _ _ _ F).
    assert (E : final_state (buffer_chunk chunk self) = Some s1)
      by now rewrite B.
    apply buffer_chunk_effect in E. destruct E as (_ & (added & A) & _).
    rewrite A, skipn_app, skipn_all, Nat.sub_diag. simpl.
    apply buffer_chunk_mu in B.
    apply (IH (mu s1)); [lia|reflexivity|].
    rewrite A, Hb, app_assoc. reflexivity.
  - rewrite (content_false _ _ _ B), (content_false _ _ _ F).
    simpl. now rewrite Hb.
  - rewrite (content_raise _ _ _ _ B), (content_raise _ _ _ _ F).
    reflexivity.
  - exfalso. eapply buffer_chunk_returns; eauto.
Qed.

(** A loop leaves the content as it is, and either uses up input or
    changes nothing. *)
Lemma while_content {L : Type} (chunk : Z)
  (cond : L -> TransparentUnzip -> bool)
  (body : L -> TransparentUnzip -> L) (l : L) (self : TransparentUnzip) :
  match while_chunk chunk cond body l self with
  | Return _ s1 =>
      content chunk s1 = content chunk self /\
      ((mu s1 < mu self)%nat \/ s1 = self)
  | Raise e _ => content chunk self = Some (inl e)
  | Diverge => False
  end.
Proof.
  apply (while_chunk_ind chunk cond body
           (fun _ self r =>
              match r with
              | Return _ s1 =>
                  content chunk s1 = content chunk self /\
                  ((mu s1 < mu self)%nat \/ s1 = self)
              | Raise e _ => content chunk self = Some (inl e)
              | Diverge => False
              end)).
  - intros; auto.
  - intros; auto.
  - intros l0 s0 e s1 _ B. eapply content_raise; eauto.
  - intros l0 s0 s1 r _ B IH.
    rewrite (content_true _ _ _ B). apply buffer_chunk_mu in B.
    destruct r as [l1 s2|e s2|]; auto.
    destruct IH as [IH1 [IH2|IH2]]; split; auto; left; [lia|now subst].
Qed.

(** [read] hands out the front of the content. *)
Lemma read_content (chunk size : Z) (self : TransparentUnzip) :
  0 <= size ->
  match read chunk size self with
  | Return part s' =>
      content chunk self = prepend part (content chunk s') /\
      len part <= size /\
      (len part < size -> content chunk s' = Some (inr [])) /\
      (part <> [] ->
       (mu s' < mu self)%nat \/
       (mu s' = mu self /\ (length (buffer s') < length (buffer self))%nat))
  | Raise e _ => content chunk self = Some (inl e)
  | Diverge => False
  end.
Proof.
  intros Hs.
  destruct (read chunk size self) as [part s'|e s'|] eqn:R.
  - pose proof (read_short _ _ _ _ _ Hs R) as [Le Short].
    apply read_inv in R. destruct R as (s1 & W & P & S).
    pose proof (while_content chunk (fun _ s => len (buffer s) <? size)
                  (fun _ _ => tt) tt self) as C.
    rewrite W in C. destruct C as [C M].
    assert (Sp : buffer s1 = part ++ slice_from (buffer s1) size).
    { rewrite P. symmetry. apply slice_split. }
    split; [|split; [exact Le|split]].
    + rewrite <- C, S. now apply content_frame.
    + intros Lt. apply content_exhausted. now apply Short.
    + intros Ne. assert (Ms : mu s' = mu s1) by (subst s'; reflexivity).
      destruct M as [M|M]; [left; lia|right]. subst s1.
      split; [exact Ms|]. subst s'. simpl. rewrite Sp at 2.
      rewrite length_app. destruct part; [congruence|simpl; lia].
  - unfold read in R.
    pose proof (while_content chunk (fun _ s => len (buffer s) <? size)
                  (fun _ _ => tt) tt self) as C.
    destruct (while_chunk _ _ _ _ _) as [[] s1|e1 s1|]; simpl in R;
      inversion R; subst. exact C.
  - exfalso. eapply read_returns; eauto.
Qed.

Lemma read_consumes (chunk size : Z) :
  0 < size -> consumes chunk (read chunk size).
Proof.
  intros Hs self.
  pose proof (read_content chunk size self (Z.lt_le_incl _ _ Hs)) as C.
  destruct (read chunk size self) as [part s'|e s'|]; auto.
  destruct C as (C1 & C2 & C3 & C4). repeat split; auto.
  intros E. apply C3. subst part. rewrite len_nil. exact Hs.
Qed.

(** ** [readline] *)

Lemma index_from_ge (c : byte) (s : bytes) : forall i,
  0 <= i -> -1 <= index_from c s i.
Proof.
  induction s as [|x r IH]; simpl; intros i Hi; [lia|].
  destruct (Byte.eqb x c); [lia|]. apply IH. lia.
Qed.

Lemma find_ge (s : bytes) (c : byte) (start : Z) : -1 <= find s c start.
Proof.
  unfold find. apply index_from_ge.
  destruct (Z.ltb_spec start 0); lia.
Qed.

(** The loop of an unbounded [readline] stops with an index, or without
    one at the end of refilling. *)
Lemma readline_loop_exit (chunk : Z) (l : Z * Z) (self : TransparentUnzip) :
  -1 <= fst l ->
  match while_chunk chunk (readline_cond None) readline_body l self with
  | Return l' s1 =>
      -1 <= fst l' /\
      (fst l' = -1 -> buffer_chunk chunk s1 = Return false s1)
  | _ => True
  end.
Proof.
  revert l self.
  apply (while_chunk_ind chunk (readline_cond None) readline_body
           (fun l _ r =>
              -1 <= fst l ->
              match r with
              | Return l' s1 =>
                  -1 <= fst l' /\
                  (fst l' = -1 -> buffer_chunk chunk s1 = Return false s1)
              | _ => True
              end)).
  - intros [ni ck] s0 C G. simpl in *. split; [exact G|].
    intros E. subst ni. simpl in C. discriminate.
  - intros [ni ck] s0 _ B G. simpl in *. auto.
  - intros; exact Logic.I.
  - intros [ni ck] s0 s1 r _ _ IH G. apply IH. simpl. apply find_ge.
Qed.

Lemma readline_consumes (chunk : Z) : consumes chunk (readline chunk None).
Proof.
  intros self. unfold readline.
  pose proof (while_content chunk (readline_cond None) readline_body
                (find (buffer self) NL 0, len (buffer self)) self) as C.
  pose proof (readline_loop_exit chunk
                (find (buffer self) NL 0, len (buffer self)) self
                (find_ge _ _ _)) as X.
  destruct (while_chunk _ _ _ _ _) as [[ni ck] s1|e s1|]; simpl; auto.
  destruct C as [C M]. destruct X as [G End]. simpl in G, End.
  set (size := if ni =? -1 then len (buffer s1) else ni + 1).
  assert (Hs : 0 <= size).
  { unfold size. pose proof (len_nonneg (buffer s1)).
    destruct (Z.eqb_spec ni (-1)); lia. }
  assert (R : (if ni =? -1 then read chunk (len (buffer s1)) s1
               else read chunk (ni + 1) s1) = read chunk size s1).
  { unfold size. destruct (ni =? -1); reflexivity. }
  rewrite R. clear R.
  pose proof (read_content chunk size s1 Hs) as RC.
  destruct (Z.eq_dec size 0) as [Z0|Z0].
  - (* nothing buffered and no index: the end of refilling *)
    assert (E : ni = -1 /\ buffer s1 = []).
    { unfold size in Z0. destruct (Z.eqb_spec ni (-1)) as [E|E]; [|lia].
      split; [exact E|]. now apply len_zero. }
    destruct E as [E B]. rewrite Z0, read_nothing.
    specialize (End E).
    rewrite <- C, (content_false _ _ _ End), B.
    repeat split; auto. congruence.
  - destruct (read chunk size s1) as [part s'|e s'|]; [|congruence|auto].
    destruct RC as (R1 & R2 & R3 & R4). rewrite <- C.
    split; [exact R1|split].
    + intros E. apply R3. subst part. rewrite len_nil. lia.
    + intros Ne. specialize (R4 Ne).
      destruct M as [M|M]; [left; lia|subst s1; exact R4].
Qed.

(** ** A method repeated until it returns the empty string *)

Lemma until_empty_content (chunk : Z)
  (f : TransparentUnzip -> outcome bytes) :
  consumes chunk f ->
  forall self, exists n, forall fuel, (n <= fuel)%nat ->
    match until_empty f fuel self with
    | Return parts _ => content chunk self = Some (inr (concat parts))
    | Raise e _ => content chunk self = Some (inl e)
    | Diverge => False
    end.
Proof.
  intros Hf self.
  remember (mu self) as m eqn:Hm. revert self Hm.
  induction m as [m IHm] using lt_wf_ind. intros self Hm.
  remember (length (buffer self)) as k eqn:Hk. revert self Hm Hk.
  induction k as [k IHk] using lt_wf_ind. intros self Hm Hk.
  pose proof (Hf self) as C.
  destruct (f self) as [part s'|e s'|] eqn:F; [|exists 1%nat|contradiction].
  - destruct C as (C1 & C2 & C3).
    destruct part as [|b part].
    + exists 1%nat. intros [|fuel] Hn; [lia|]. simpl. rewrite F. simpl.
      rewrite C1, prepend_nil. now apply C2.
    + assert (Next : exists n, forall fuel, (n <= fuel)%nat ->
                match until_empty f fuel s' with
                | Return parts _ =>
                    content chunk s' = Some (inr (concat parts))
                | Raise e _ => content chunk s' = Some (inl e)
                | Diverge => False
                end).
      { destruct C3 as [Lt|[Eq Lt]]; [congruence| |].
        - apply (IHm (mu s')); [lia|reflexivity].
        - apply (IHk (length (buffer s'))); [lia|congruence|reflexivity]. }
      destruct Next as [n Hn]. exists (S n).
      intros [|fuel] Hfuel; [lia|]. simpl. rewrite F. simpl.
      specialize (Hn fuel ltac:(lia)).
      destruct (until_empty f fuel s') as [parts s2|e s2|]; simpl;
        [|rewrite C1, Hn; reflexivity|exact Hn].
      rewrite C1, Hn. reflexivity.
  - intros [|fuel] Hn; [lia|]. simpl. rewrite F. simpl. exact C.
Qed.

(** Reading the content of a stream in full. *)
Lemma read_all_content (chunk size : Z) (self : TransparentUnzip)
  (t : bytes) :
  0 < size -> content chunk self = Some (inr t) ->
  exists n, forall fuel, (n <= fuel)%nat ->
    exists parts s', read_all fuel chunk size self = Return parts s' /\
                     concat parts = t.
Proof.
  intros Hs Ct.
  destruct (until_empty_content chunk (read chunk size)
              (read_consumes chunk size Hs) self) as [n Hn].
  exists n. intros fuel Hf. specialize (Hn fuel Hf). unfold read_all.
  destruct (until_empty _ fuel self) as [parts s'|e s'|];
    [|congruence|contradiction].
  exists parts, s'. split; congruence.
Qed.

(** Claim C7.  For every state of the reader, so for every underlying
    stream, and every [size > 0]: unbounded [readline()] calls repeated
    until the empty result return, in order, the bytes that [read(size)]
    calls repeated until the empty result return; if one of the two runs
    is stopped by an exception, so is the other, by the same one. *)
Theorem readlines_equal_read (chunk size : Z) (self : TransparentUnzip) :
  0 < size ->
  exists n, forall fuel, (n <= fuel)%nat ->
    same_bytes (readlines fuel chunk self) (read_all fuel chunk size self).
Proof.
  intros Hs.
  destruct (until_empty_content chunk (readline chunk None)
              (readline_consumes chunk) self) as [n1 H1].
  destruct (until_empty_content chunk (read chunk size)
              (read_consumes chunk size Hs) self) as [n2 H2].
  exists (Nat.max n1 n2). intros fuel Hf.
  specialize (H1 fuel ltac:(lia)). specialize (H2 fuel ltac:(lia)).
  unfold same_bytes, readlines, read_all.
  destruct (until_empty (readline chunk None) fuel self) as [ls s1|e1 s1|];
    destruct (until_empty (read chunk size) fuel self) as [ps s2|e2 s2|];
    try contradiction; congruence.
Qed.

(** ** Sequences of reads *)

Lemma slice_app (p t : bytes) (a b : Z) :
  0 <= a -> 0 <= b -> len p <= a -> (len p < a -> t = []) ->
  slice_to (p ++ t) (a + b) = p ++ slice_to t b /\
  slice_from (p ++ t) (a + b) = slice_from t b.
Proof.
  intros Ha Hb Hp Ht.
  rewrite !slice_to_firstn, !slice_from_skipn by lia.
  unfold len in *.
  destruct (Z.eq_dec (Z.of_nat (length p)) a) as [E|E].
  - replace (Z.to_nat (a + b)) with (length p + Z.to_nat b)%nat by lia.
    rewrite firstn_app_2, skipn_app, (skipn_all2 p) by lia.
    replace (length p + Z.to_nat b - length p)%nat with (Z.to_nat b) by lia.
    auto.
  - rewrite (Ht ltac:(lia)), app_nil_r, firstn_nil, skipn_nil.
    rewrite firstn_all2, skipn_all2 by lia. rewrite app_nil_r. auto.
Qed.

Lemma sum_sizes_nonneg (sizes : list Z) :
  Forall nonneg sizes -> 0 <= sum_sizes sizes.
Proof.
  induction 1 as [|n sizes Hn _ IH]; simpl; unfold nonneg in *; lia.
Qed.

(** Reads hand out the content from its front, as much as they ask for. *)
Lemma read_many_content (chunk : Z) (sizes : list Z) :
  Forall nonneg sizes ->
  forall self t, content chunk self = Some (inr t) ->
  exists parts s',
    read_many chunk sizes self = Return parts s' /\
    concat parts = slice_to t (sum_sizes sizes) /\
    content chunk s' = Some (inr (slice_from t (sum_sizes sizes))).
Proof.
  induction 1 as [|size sizes Hs Hrest IH]; intros self t Ct.
  - exists [], self. repeat split. exact Ct.
  - pose proof (read_content chunk size self Hs) as RC. simpl.
    destruct (read chunk size self) as [part s1|e s1|];
      [|congruence|contradiction].
    destruct RC as (C1 & C2 & C3 & _). rewrite Ct in C1.
    destruct (content chunk s1) as [[e|t1]|] eqn:C; simpl in C1;
      try discriminate.
    inversion C1; subst t. clear C1.
    destruct (IH s1 t1 C) as (parts & s' & R & P & Cs).
    exists (part :: parts), s'. simpl. rewrite R. simpl.
    assert (T : len part < size -> t1 = []).
    { intros Lt. specialize (C3 Lt). congruence. }
    destruct (slice_app part t1 size (sum_sizes sizes) Hs
                (sum_sizes_nonneg _ Hrest) C2 T) as [S1 S2].
    rewrite S1, S2, P. auto.
Qed.

(** ** Where the input comes from *)

Lemma next_compressed_pull (chunk : Z) (self : TransparentUnzip) :
  (forall d, decompressor self = Some d -> unused_data d = []) ->
  next_compressed chunk self = pull_chunk chunk self.
Proof.
  intros U. unfold next_compressed.
  destruct (decompressor self) as [d|]; [|reflexivity].
  rewrite (U d eq_refl). reflexivity.
Qed.

Lemma next_compressed_recycle (chunk : Z) (self : TransparentUnzip)
  (d : decompressobj) :
  decompressor self = Some d -> unused_data d <> [] ->
  next_compressed chunk self =
  (unused_data d,
   set_decompressor (set_buffer self (buffer self ++ flush d))
     (Some new_decompressobj)).
Proof.
  intros D U. unfold next_compressed. rewrite D.
  destruct (unused_data d) as [|b u]; [congruence|].
  reflexivity.
Qed.

Lemma stream_read_cases (chunk : Z) (s : bytes) :
  chunk <> 0 ->
  exists c rest, stream_read chunk s = (c, rest) /\ s = c ++ rest /\
                 (c = [] -> s = []).
Proof.
  intros Hc. destruct (stream_read chunk s) as [c rest] eqn:R.
  exists c, rest. split; [reflexivity|]. split.
  - eapply stream_read_split; eauto.
  - intros E. subst c. destruct s as [|b s]; [reflexivity|].
    exfalso. eapply (stream_read_progress chunk (b :: s)); eauto.
    congruence.
Qed.

(** ** Streams that are not compressed *)

Lemma raw_content (chunk : Z) :
  chunk <> 0 ->
  forall self,
  header_read self = Some false ->
  (forall d, decompressor self = Some d -> unused_data d = []) ->
  content chunk self = Some (inr (buffer self ++ stream self)).
Proof.
  intros Hc self. remember (mu self) as n eqn:Hn. revert self Hn.
  induction n as [n IH] using lt_wf_ind. intros self Hn HF U.
  destruct (stream_read_cases chunk (stream self) Hc)
    as (c & rest & R & S & E).
  assert (B : buffer_chunk chunk self =
              buffer_compressed c
                (set_compressed_bytes (set_stream self rest)
                   (compressed_bytes self + len c))).
  { unfold buffer_chunk. rewrite (next_compressed_pull _ _ U).
    unfold pull_chunk. rewrite R. reflexivity. }
  unfold buffer_compressed in B. simpl in B. rewrite HF in B.
  destruct c as [|b c].
  - rewrite (E eq_refl), app_nil_r. simpl in B.
    destruct (decompressor self); eapply content_false; eauto.
  - simpl in B. rewrite (content_true _ _ _ B).
    pose proof (buffer_chunk_mu _ _ _ B) as M.
    match type of B with
    | _ = Return true ?s1 =>
        rewrite (IH (mu s1) ltac:(lia) s1 eq_refl); simpl; auto
    end.
    rewrite S, <- app_assoc. reflexivity.
Qed.

(** ** Streams that are compressed *)

Lemma inflate_running (data : bytes) : forall z o zf r,
  inflate z data = (o, zf, Running, r) -> r = [].
Proof.
  induction data as [|b rest IH]; simpl; intros z o zf r H.
  - now inversion H.
  - destruct (inflate_byte z b) as [out z'|out z'|]; try discriminate.
    destruct (inflate z' rest) as [[[o' zf'] m'] r'] eqn:E.
    inversion H; subst. eauto.
Qed.

Lemma option_map_app_nil (x : option bytes) : option_map (app []) x = x.
Proof. destruct x; reflexivity. Qed.

Lemma option_map_app_app (p q : bytes) (x : option bytes) :
  option_map (app (p ++ q)) x = option_map (app p) (option_map (app q) x).
Proof. destruct x; simpl; rewrite <- ?app_assoc; reflexivity. Qed.

(** The engine run over a piece of the input, then over the rest. *)
Lemma inflate_gunzip (data : bytes) : forall z o zf m r rest,
  inflate z data = (o, zf, m, r) ->
  gunzip_from z (data ++ rest) =
  match m with
  | Running => option_map (app o) (gunzip_from zf rest)
  | StreamEnd =>
      option_map (app o)
        (option_map (app (inflate_finish zf)) (gunzip (r ++ rest)))
  | DataError => None
  end.
Proof.
  induction data as [|b data IH]; simpl; intros z o zf m r rest H.
  - inversion H; subst. now rewrite option_map_app_nil.
  - destruct (inflate_byte z b) as [out z'|out z'|].
    + destruct (inflate z' data) as [[[o' zf'] m'] r'] eqn:E.
      inversion H; subst. rewrite (IH _ _ _ _ _ rest E).
      destruct m; rewrite ?option_map_app_app; reflexivity.
    + inversion H; subst. unfold gunzip.
      destruct (r ++ rest) as [|x l]; [reflexivity|].
      generalize (gunzip_from inflateInit (x :: l)).
      intros [t|]; reflexivity.
    + inversion H; subst. reflexivity.
Qed.

(** One [decompress] of a running decompressor, seen from the input. *)
Lemma decompress_tail (d d' : decompressobj) (c : bytes)
  (res : option bytes) :
  zmode_of d = Running -> unused_data d = [] ->
  decompress d c = (res, d') ->
  match res with
  | Some o =>
      decoder_ok d' /\
      forall rest,
        gunzip_from (zst d) (c ++ rest) =
        option_map (app o) (decoder_tail d' rest)
  | None => forall rest, gunzip_from (zst d) (c ++ rest) = None
  end.
Proof.
  intros M U. unfold decompress. rewrite M, U.
  destruct (inflate (zst d) c) as [[[o z] m] r] eqn:E.
  pose proof (fun rest => inflate_gunzip c _ _ _ _ _ rest E) as G.
  destruct m; intros H; inversion H; subst; clear H.
  - apply inflate_running in E. subst r. split.
    + left. split; reflexivity.
    + intros rest. rewrite G. reflexivity.
  - split.
    + right. reflexivity.
    + intros rest. rewrite G. reflexivity.
  - exact G.
Qed.

Lemma new_decompressobj_tail (c : bytes) (d' : decompressobj)
  (res : option bytes) :
  decompress new_decompressobj c = (res, d') ->
  match res with
  | Some o =>
      decoder_ok d' /\
      forall rest,
        gunzip_from inflateInit (c ++ rest) =
        option_map (app o) (decoder_tail d' rest)
  | None => forall rest, gunzip_from inflateInit (c ++ rest) = None
  end.
Proof. apply (decompress_tail new_decompressobj); reflexivity. Qed.

Lemma gunzip_cons (b : byte) (u rest : bytes) :
  gunzip ((b :: u) ++ rest) = gunzip_from inflateInit ((b :: u) ++ rest).
Proof. reflexivity. Qed.

Lemma buffer_chunk_pull (chunk : Z) (self : TransparentUnzip)
  (c rest : bytes) :
  (forall d, decompressor self = Some d -> unused_data d = []) ->
  stream_read chunk (stream self) = (c, rest) ->
  buffer_chunk chunk self =
  buffer_compressed c
    (set_compressed_bytes (set_stream self rest)
       (compressed_bytes self + len c)).
Proof.
  intros U R. unfold buffer_chunk. rewrite (next_compressed_pull _ _ U).
  unfold pull_chunk. rewrite R. reflexivity.
Qed.

Lemma buffer_chunk_recycle_eq (chunk : Z) (self : TransparentUnzip)
  (d : decompressobj) :
  decompressor self = Some d -> unused_data d <> [] ->
  buffer_chunk chunk self =
  buffer_compressed (unused_data d)
    (set_decompressor (set_buffer self (buffer self ++ flush d))
       (Some new_decompressobj)).
Proof.
  intros D U. unfold buffer_chunk.
  rewrite (next_compressed_recycle _ _ d D U). reflexivity.
Qed.

Ltac tail_step :=
  unfold tail_output; cbn -[decompress new_decompressobj flush gunzip_from];
  try match goal with
      | |- match ?x with Some _ => _ | None => _ end =>
          destruct x; cbn -[decompress new_decompressobj flush gunzip_from]
      end;
  first [ reflexivity
        | eexists; split;
          [reflexivity | rewrite <- ?app_assoc, ?app_nil_r; reflexivity] ].

(** Draining a stream known to be compressed delivers what the members
    hold, or meets an exception when they cannot be decoded. *)
Lemma compressed_content (chunk : Z) :
  chunk <> 0 ->
  forall self, compressed_state self ->
  match tail_output self with
  | Some t => content chunk self = Some (inr (buffer self ++ t))
  | None => exists e, content chunk self = Some (inl e)
  end.
Proof.
  intros Hc self. remember (mu self) as n eqn:Hn. revert self Hn.
  induction n as [n IH] using lt_wf_ind. intros self Hn [HT WF].
  assert (Step : forall s1 (X : option bytes),
            buffer_chunk chunk self = Return true s1 ->
            compressed_state s1 ->
            match tail_output s1 with
            | Some x =>
                exists t, X = Some t /\ buffer s1 ++ x = buffer self ++ t
            | None => X = None
            end ->
            match X with
            | Some t => content chunk self = Some (inr (buffer self ++ t))
            | None => exists e, content chunk self = Some (inl e)
            end).
  { intros s1 X B C1 E. rewrite (content_true _ _ _ B).
    pose proof (buffer_chunk_mu _ _ _ B) as M.
    pose proof (IH (mu s1) ltac:(lia) s1 eq_refl C1) as H.
    destruct (tail_output s1) as [x|].
    - destruct E as (t & -> & E). rewrite H, E. reflexivity.
    - subst X. exact H. }
  unfold tail_output. destruct (decompressor self) as [d|] eqn:D.
  - assert (OKd : decoder_ok d) by auto.
    destruct OKd as [[M U]|M].
    + (* inside a member *)
      destruct (stream_read_cases chunk (stream self) Hc)
        as (c & rest & R & S & E).
      assert (B := buffer_chunk_pull chunk self c rest
                     ltac:(intros d0 D0; congruence) R).
      unfold buffer_compressed in B.
      unfold decoder_tail. rewrite M, U.
      destruct c as [|b c]; simpl in B; rewrite HT, D in B.
      * rewrite (E eq_refl) in *. simpl in S. subst rest.
        eapply Step; [exact B| |].
        -- split; [exact HT|]. simpl. congruence.
        -- tail_step.
      * destruct (decompress d (b :: c)) as [[o|] d'] eqn:DE;
          pose proof (decompress_tail _ _ _ _ M U DE) as T.
        -- destruct T as [OK T]. rewrite S, T.
           eapply Step; [exact B| |].
           ++ split; [exact HT|]. simpl. intros d0 D0. congruence.
           ++ tail_step.
        -- rewrite S, T. eexists. eapply content_raise; eauto.
    + (* after the end of a member *)
      unfold decoder_tail. rewrite M.
      destruct (unused_data d) as [|b u] eqn:U.
      * destruct (stream_read_cases chunk (stream self) Hc)
          as (c & rest & R & S & E).
        assert (B := buffer_chunk_pull chunk self c rest
                       ltac:(intros d0 D0; congruence) R).
        unfold buffer_compressed in B.
        destruct c as [|b c]; simpl in B; rewrite HT, D in B.
        -- rewrite (E eq_refl) in *. simpl in S. subst rest.
           eapply Step; [exact B| |].
           ++ split; [exact HT|]. simpl. congruence.
           ++ tail_step.
        -- unfold decompress in B. rewrite M, U in B. simpl in B.
           rewrite S.
           eapply Step; [exact B| |].
           ++ split; [exact HT|]. simpl. intros d0 D0.
              inversion D0; subst. right. reflexivity.
           ++ unfold tail_output, decoder_tail, flush.
              cbn -[gunzip_from].
              destruct (gunzip_from inflateInit (b :: c ++ rest));
                cbn; [|reflexivity].
              eexists. split; [reflexivity|].
              now rewrite app_nil_r.
      * (* the left-over input goes to a new decompressor *)
        assert (B := buffer_chunk_recycle_eq chunk self d D
                       ltac:(congruence)).
        rewrite U in B. unfold buffer_compressed in B.
        cbn -[decompress new_decompressobj flush] in B. rewrite HT in B.
        rewrite gunzip_cons.
        destruct (decompress new_decompressobj (b :: u)) as [[o|] d'] eqn:DE;
          pose proof (new_decompressobj_tail _ _ _ DE) as T.
        -- destruct T as [OK T]. rewrite T.
           eapply Step; [exact B| |].
           ++ split; [exact HT|]. simpl. intros d0 D0. congruence.
           ++ tail_step.
        -- rewrite T. simpl.
           eexists. eapply content_raise; eauto.
  - (* no decompressor *)
    destruct (stream_read_cases chunk (stream self) Hc)
      as (c & rest & R & S & E).
    assert (B := buffer_chunk_pull chunk self c rest
                   ltac:(intros d0 D0; congruence) R).
    unfold buffer_compressed in B.
    destruct c as [|b c]; simpl in B; rewrite HT, D in B.
    + rewrite (E eq_refl).
      rewrite (content_false _ _ _ B), app_nil_r. reflexivity.
    + rewrite S. simpl.
      eexists. eapply content_raise; eauto.
Qed.

(** ** A fresh reader *)

Lemma drain_content (chunk : Z) (self sf : TransparentUnzip) :
  drain chunk self = Return tt sf ->
  content chunk self = Some (inr (buffer sf)).
Proof. intros H. unfold content. rewrite H. reflexivity. Qed.

Lemma content_drain (chunk : Z) (self : TransparentUnzip) (t : bytes) :
  content chunk self = Some (inr t) ->
  exists sf, drain chunk self = Return tt sf /\ buffer sf = t.
Proof.
  unfold content. destruct (drain chunk self) as [[] sf|e sf|];
    intros H; inversion H; subst. eauto.
Qed.

Lemma drain_header (chunk : Z) (self sf : TransparentUnzip) :
  drain chunk self = Return tt sf -> header_read self <> None ->
  header_read sf = header_read self.
Proof.
  intros H N.
  pose proof (while_chunk_progress chunk (fun _ _ => true) (fun _ _ => tt)
                tt self sf) as P.
  unfold drain in H. rewrite H in P. destruct (P eq_refl) as (Q & _). auto.
Qed.

Lemma decompress_nil_new :
  decompress new_decompressobj [] = (Some [], new_decompressobj).
Proof. reflexivity. Qed.

Lemma first_chunk_zero (s : bytes) : first_chunk 0 s = [].
Proof. reflexivity. Qed.

Lemma first_chunk_nil (chunk : Z) : first_chunk chunk [] = [].
Proof.
  unfold first_chunk, stream_read. destruct (chunk <? 0); simpl;
    [reflexivity|]. now rewrite firstn_nil.
Qed.

(** The first refill of a fresh reader on a stream that is not empty. *)
Lemma buffer_chunk_init (chunk : Z) (s : bytes) :
  chunk <> 0 -> s <> [] ->
  exists rest, s = first_chunk chunk s ++ rest /\
    first_chunk chunk s <> [] /\
    buffer_chunk chunk (init s) =
    let c := first_chunk chunk s in
    match decompress new_decompressobj c with
    | (Some o, d') =>
        Return true
          (mkTransparentUnzip rest (Some d') (Some true) o (len c) 0)
    | (None, d') =>
        Return true
          (mkTransparentUnzip rest (Some d') (Some false) c (len c) 0)
    end.
Proof.
  intros Hc Hs. unfold first_chunk.
  destruct (stream_read_cases chunk s Hc) as (c & rest & R & S & E).
  rewrite R. simpl. exists rest. split; [exact S|].
  assert (Ne : c <> []) by (intros X; auto).
  split; [exact Ne|].
  rewrite (buffer_chunk_pull chunk (init s) c rest);
    [|intros d D; inversion D; reflexivity|exact R].
  unfold buffer_compressed. destruct c as [|b c]; [congruence|].
  cbn -[decompress new_decompressobj len].
  destruct (decompress new_decompressobj (b :: c)) as [[o|] d'];
    reflexivity.
Qed.

Lemma buffer_chunk_init_nil (chunk : Z) :
  buffer_chunk chunk (init []) = Return false (init []).
Proof.
  unfold buffer_chunk, buffer_compressed, next_compressed, pull_chunk,
    stream_read.
  destruct (chunk <? 0); simpl; rewrite ?firstn_nil, ?skipn_nil;
    reflexivity.
Qed.

(** What a fresh reader holds and which flag draining leaves: nothing on
    the empty stream; the stream itself when its first chunk is not
    decoded, and then the stream cannot be decoded as a whole either;
    and what the members hold in the other case, or an exception. *)
Lemma content_init (chunk : Z) (s : bytes) :
  chunk <> 0 ->
  match s with
  | [] => drain chunk (init s) = Return tt (init s)
  | _ :: _ =>
      match fst (decompress new_decompressobj (first_chunk chunk s)) with
      | None =>
          gunzip s = None /\
          exists sf, drain chunk (init s) = Return tt sf /\
                     buffer sf = s /\ header_read sf = Some false
      | Some _ =>
          match gunzip s with
          | Some t =>
              exists sf, drain chunk (init s) = Return tt sf /\
                         buffer sf = t /\ header_read sf = Some true
          | None => exists e, content chunk (init s) = Some (inl e)
          end
      end
  end.
Proof.
  intros Hc. destruct s as [|b s].
  { rewrite drain_unfold, buffer_chunk_init_nil. reflexivity. }
  assert (G0 : gunzip (b :: s) = gunzip_from inflateInit (b :: s))
    by reflexivity.
  assert (Hs : b :: s <> []) by congruence.
  set (s0 := b :: s) in *. clearbody s0. clear b s.
  destruct (buffer_chunk_init chunk s0 Hc Hs) as (rest & S & Ne & B).
  cbv zeta in B. set (c := first_chunk chunk s0) in *.
  assert (G : gunzip s0 = gunzip_from inflateInit (c ++ rest)).
  { rewrite G0, <- S. reflexivity. }
  destruct (decompress new_decompressobj c) as [[o|] d'] eqn:DE;
    pose proof (new_decompressobj_tail _ _ _ DE) as T; simpl.
  - destruct T as [OK T]. rewrite G, T.
    match type of B with
    | _ = Return true ?s1 =>
        pose proof (compressed_content chunk Hc s1) as CC;
        assert (CS : compressed_state s1)
          by (split; [reflexivity|]; simpl; intros d0 D0; congruence);
        specialize (CC CS); unfold tail_output in CC; simpl in CC
    end.
    destruct (decoder_tail d' rest) as [t|]; simpl.
    + rewrite <- (content_true _ _ _ B) in CC.
      apply content_drain in CC. destruct CC as (sf & D & Bf).
      exists sf. repeat split; auto.
      rewrite drain_unfold, B in D.
      apply drain_header in D; simpl; [exact D|congruence].
    + destruct CC as [e CC]. exists e.
      now rewrite (content_true _ _ _ B).
  - split; [rewrite G; apply T|].
    match type of B with
    | _ = Return true ?s1 =>
        pose proof (raw_content chunk Hc s1 eq_refl) as RC
    end.
    simpl in RC.
    assert (U : forall d, Some d' = Some d -> unused_data d = []).
    { intros d D. injection D as <-.
      apply decompress_unused in DE. destruct DE as (_ & _ & E).
      now rewrite E. }
    specialize (RC U). rewrite <- S in RC.
    rewrite <- (content_true _ _ _ B) in RC.
    apply content_drain in RC. destruct RC as (sf & D & Bf).
    exists sf. repeat split; auto.
    rewrite drain_unfold, B in D.
    apply drain_header in D; simpl; [exact D|congruence].
Qed.

(** A stream whose first chunk is not decoded holds its own bytes. *)
Lemma content_init_raw (chunk : Z) (s : bytes) :
  fst (decompress new_decompressobj (first_chunk chunk s)) = None ->
  content chunk (init s) = Some (inr s).
Proof.
  intros F.
  assert (Hc : chunk <> 0).
  { intros E. subst chunk. rewrite first_chunk_zero in F. discriminate. }
  pose proof (content_init chunk s Hc) as C.
  destruct s as [|b s].
  - rewrite first_chunk_nil in F. discriminate.
  - rewrite F in C. destruct C as (_ & sf & D & B & _).
    rewrite (drain_content _ _ _ D), B. reflexivity.
Qed.

(** A stream that can be decoded holds what its members hold. *)
Lemma content_init_gunzip (chunk : Z) (s t : bytes) :
  chunk <> 0 -> gunzip s = Some t -> content chunk (init s) = Some (inr t).
Proof.
  intros Hc G. pose proof (content_init chunk s Hc) as C.
  destruct s as [|b s].
  - rewrite (drain_content _ _ _ C). simpl in *. congruence.
  - rewrite G in C.
    destruct (fst (decompress new_decompressobj (first_chunk chunk (b :: s)))).
    + destruct C as (sf & D & B & _).
      rewrite (drain_content _ _ _ D), B. reflexivity.
    + destruct C as (C & _). discriminate.
Qed.

Lemma gzip_member_gunzip (m o rest : bytes) :
  gzip_member m o ->
  m <> [] /\
  gunzip_from inflateInit (m ++ rest) = option_map (app o) (gunzip rest).
Proof.
  unfold gzip_member, gunzip_member. intros H.
  destruct (decompress new_decompressobj m) as [[out|] d] eqn:DE;
    [|discriminate].
  destruct (zmode_of d) eqn:M; try discriminate.
  destruct (unused_data d) eqn:U; try discriminate.
  inversion H; subst. split.
  - intros E. subst m. rewrite decompress_nil_new in DE.
    inversion DE; subst. discriminate.
  - pose proof (new_decompressobj_tail _ _ _ DE) as [_ T].
    rewrite T. unfold decoder_tail. rewrite M, U. simpl.
    rewrite option_map_app_app. reflexivity.
Qed.

(** Concatenated members decode to their concatenated contents. *)
Lemma gunzip_members (members : list (bytes * bytes)) :
  Forall (fun mo => gzip_member (fst mo) (snd mo)) members ->
  gunzip (concat (map fst members)) = Some (concat (map snd members)).
Proof.
  induction 1 as [|[m o] members Hm _ IH]; [reflexivity|].
  simpl in *. destruct (gzip_member_gunzip m o
                          (concat (map fst members)) Hm) as [Ne G].
  destruct m as [|b m]; [congruence|].
  rewrite gunzip_cons, G, IH. reflexivity.
Qed.

(** ** Pass-through, members and chunk sizes *)

Lemma reads_of_content (chunk : Z) (self : TransparentUnzip) (t : bytes) :
  content chunk self = Some (inr t) ->
  (forall sizes, Forall nonneg sizes ->
     exists parts s',
       read_many chunk sizes self = Return parts s' /\
       concat parts = slice_to t (sum_sizes sizes)) /\
  (forall size, 0 < size ->
     exists n, forall fuel, (n <= fuel)%nat ->
       exists parts s',
         read_all fuel chunk size self = Return parts s' /\
         concat parts = t).
Proof.
  intros C. split.
  - intros sizes Hs.
    destruct (read_many_content chunk sizes Hs self t C)
      as (parts & s' & R & P & _).
    eauto.
  - intros size Hs. now apply read_all_content.
Qed.

(** Claim C3.  When the first chunk of the stream is not decoded as gzip,
    no call of [read] raises an exception, the reads return the bytes of
    the stream in order, as many as they ask for, and reading until the
    empty result returns the stream byte for byte. *)
Theorem pass_through (chunk : Z) (s : bytes) :
  fst (decompress new_decompressobj (first_chunk chunk s)) = None ->
  (forall sizes, Forall nonneg sizes ->
     exists parts s',
       read_many chunk sizes (init s) = Return parts s' /\
       concat parts = slice_to s (sum_sizes sizes)) /\
  (forall size, 0 < size ->
     exists n, forall fuel, (n <= fuel)%nat ->
       exists parts s',
         read_all fuel chunk size (init s) = Return parts s' /\
         concat parts = s).
Proof.
  intros F. apply reads_of_content. now apply content_init_raw.
Qed.

(** The step of [buffer_chunk] at a member boundary. *)
Lemma buffer_chunk_boundary (chunk : Z) (self : TransparentUnzip)
  (d : decompressobj) :
  decompressor self = Some d -> unused_data d <> [] ->
  header_read self = Some true ->
  buffer_chunk chunk self =
  match decompress new_decompressobj (unused_data d) with
  | (Some decompressed, d') =>
      Return true
        (mkTransparentUnzip (stream self) (Some d') (Some true)
           ((buffer self ++ flush d) ++ decompressed)
           (compressed_bytes self) (uncompressed_bytes self))
  | (None, d') =>
      Raise ZlibError
        (mkTransparentUnzip (stream self) (Some d') (Some true)
           (buffer self ++ flush d)
           (compressed_bytes self) (uncompressed_bytes self))
  end.
Proof.
  intros D U HT. rewrite (buffer_chunk_recycle_eq chunk self d D U).
  unfold buffer_compressed.
  destruct (unused_data d) as [|b u]; [congruence|].
  cbn -[decompress new_decompressobj flush]. rewrite HT.
  destruct (decompress new_decompressobj (b :: u)) as [[o|] d'];
    unfold set_buffer, set_decompressor;
    cbn -[decompress new_decompressobj flush]; rewrite ?HT; reflexivity.
Qed.

(** Claim C4.  On a stream made of gzip members, no call of [read] raises
    an exception, the reads return in order the bytes the members hold,
    and reading until the empty result returns the concatenation of what
    each member decompresses to.  At a member boundary [buffer_chunk]
    appends what the finished decompressor flushes, replaces it by a new
    one and gives the left-over bytes to the new one as its input. *)
Theorem concatenated_members (chunk : Z) (members : list (bytes * bytes)) :
  chunk <> 0 ->
  Forall (fun mo => gzip_member (fst mo) (snd mo)) members ->
  let s := concat (map fst members) in
  let t := concat (map snd members) in
  (forall sizes, Forall nonneg sizes ->
     exists parts s',
       read_many chunk sizes (init s) = Return parts s' /\
       concat parts = slice_to t (sum_sizes sizes)) /\
  (forall size, 0 < size ->
     exists n, forall fuel, (n <= fuel)%nat ->
       exists parts s',
         read_all fuel chunk size (init s) = Return parts s' /\
         concat parts = t) /\
  (forall self d,
     decompressor self = Some d -> unused_data d <> [] ->
     header_read self = Some true ->
     buffer_chunk chunk self =
     match decompress new_decompressobj (unused_data d) with
     | (Some decompressed, d') =>
         Return true
           (mkTransparentUnzip (stream self) (Some d') (Some true)
              ((buffer self ++ flush d) ++ decompressed)
              (compressed_bytes self) (uncompressed_bytes self))
     | (None, d') =>
         Raise ZlibError
           (mkTransparentUnzip (stream self) (Some d') (Some true)
              (buffer self ++ flush d)
              (compressed_bytes self) (uncompressed_bytes self))
     end).
Proof.
  intros Hc Hm s t.
  assert (C : content chunk (init s) = Some (inr t)).
  { apply content_init_gunzip; [exact Hc|]. now apply gunzip_members. }
  destruct (reads_of_content chunk (init s) t C) as [R1 R2].
  split; [exact R1|]. split; [exact R2|].
  intros self d. apply buffer_chunk_boundary.
Qed.

(** Draining a fresh reader without an exception ends in one of three
    ways. *)
Lemma drain_init_cases (chunk : Z) (s : bytes) (sf : TransparentUnzip) :
  chunk <> 0 -> drain chunk (init s) = Return tt sf ->
  (s = [] /\ sf = init s) \/
  (s <> [] /\ gunzip s = None /\ buffer sf = s /\
   header_read sf = Some false) \/
  (s <> [] /\ gunzip s = Some (buffer sf) /\ header_read sf = Some true).
Proof.
  intros Hc D. pose proof (content_init chunk s Hc) as C.
  destruct s as [|b s].
  - left. split; [reflexivity|]. congruence.
  - right.
    destruct (fst (decompress new_decompressobj (first_chunk chunk (b :: s)))).
    + right. split; [congruence|]. destruct (gunzip (b :: s)) as [t|].
      * destruct C as (sf' & D' & B & H). rewrite D in D'.
        inversion D'; subst. auto.
      * destruct C as [e C]. rewrite (drain_content _ _ _ D) in C.
        discriminate.
    + left. split; [congruence|].
      destruct C as (G & sf' & D' & B & H). rewrite D in D'.
      inversion D'; subst. auto.
Qed.

(** Claim C5, amended.  When draining the stream raises no exception
    under either of two positive chunk sizes, both leave the same bytes
    and the same flag, and reading until the empty result returns the
    same bytes under both. *)
Theorem chunk_size_independence (n1 n2 : Z) (s : bytes)
  (s1 s2 : TransparentUnzip) :
  0 < n1 -> 0 < n2 ->
  drain n1 (init s) = Return tt s1 ->
  drain n2 (init s) = Return tt s2 ->
  buffer s1 = buffer s2 /\
  header_read s1 = header_read s2 /\
  forall size, 0 < size ->
    exists n, forall fuel, (n <= fuel)%nat ->
      exists parts1 f1 parts2 f2,
        read_all fuel n1 size (init s) = Return parts1 f1 /\
        read_all fuel n2 size (init s) = Return parts2 f2 /\
        concat parts1 = concat parts2.
Proof.
  intros H1 H2 D1 D2.
  assert (E : buffer s1 = buffer s2 /\ header_read s1 = header_read s2).
  { apply drain_init_cases in D1; [|lia]. apply drain_init_cases in D2; [|lia].
    destruct D1 as [[E1 F1]|[(N1 & G1 & B1 & F1)|(N1 & G1 & F1)]];
      destruct D2 as [[E2 F2]|[(N2 & G2 & B2 & F2)|(N2 & G2 & F2)]];
      try contradiction; try congruence; split; congruence. }
  destruct E as [EB EH]. split; [exact EB|]. split; [exact EH|].
  intros size Hs.
  apply drain_content in D1. apply drain_content in D2.
  destruct (read_all_content n1 size _ _ Hs D1) as [m1 R1].
  destruct (read_all_content n2 size _ _ Hs D2) as [m2 R2].
  exists (Nat.max m1 m2). intros fuel Hf.
  destruct (R1 fuel ltac:(lia)) as (p1 & f1 & A1 & C1).
  destruct (R2 fuel ltac:(lia)) as (p2 & f2 & A2 & C2).
  exists p1, f1, p2, f2. repeat split; auto. congruence.
Qed.

(** * Further properties of the reader *)

(** ** Reads that need no refill *)

Lemma read_no_refill (chunk size : Z) (self : TransparentUnzip) :
  size <= len (buffer self) \/ buffer_chunk chunk self = Return false self ->
  read chunk size self =
  Return (slice_to (buffer self) size)
    (rebuffer self (slice_from (buffer self) size) (compressed_bytes self)
       (uncompressed_bytes self + len (slice_to (buffer self) size))).
Proof.
  intros H. unfold read. rewrite while_chunk_unfold.
  destruct (Z.ltb_spec (len (buffer self)) size) as [Lt|Ge].
  - destruct H as [H|H]; [lia|]. rewrite H. reflexivity.
  - reflexivity.
Qed.

(** X1.  When the buffer holds at least [size] bytes, [read(size)] takes
    them from the buffer and touches nothing else: the stream, the
    decompressor, the flag and the count of compressed bytes stay.  This
    includes a negative [size], for which the result is the buffer without
    its last [-size] bytes, unlike [read(-1)] of a file. *)
Theorem read_from_buffer (chunk size : Z) (self : TransparentUnzip) :
  size <= len (buffer self) ->
  exists s',
    read chunk size self = Return (slice_to (buffer self) size) s' /\
    stream s' = stream self /\ decompressor s' = decompressor self /\
    header_read s' = header_read self /\
    compressed_bytes s' = compressed_bytes self /\
    buffer self = slice_to (buffer self) size ++ buffer s' /\
    (0 <= size -> len (slice_to (buffer self) size) = size) /\
    (size < 0 ->
     slice_to (buffer self) size =
     firstn (length (buffer self) - Z.to_nat (- size)) (buffer self)).
Proof.
  intros H. eexists. split; [apply read_no_refill; now left|].
  simpl. repeat split.
  - symmetry. apply slice_split.
  - intros P. rewrite slice_to_len by exact P. lia.
  - intros N. unfold slice_to. destruct (Z.leb_spec 0 size); [lia|].
    f_equal. unfold len. lia.
Qed.

(** ** The end of the stream *)

Lemma exhausted_read (chunk size : Z) (self : TransparentUnzip) :
  exhausted chunk self -> read chunk size self = Return [] self.
Proof.
  intros [B F]. rewrite read_no_refill by now right.
  rewrite B. unfold slice_to, slice_from.
  destruct (0 <=? size); rewrite firstn_nil, skipn_nil, len_nil, Z.add_0_r;
    rewrite <- B; now rewrite rebuffer_same.
Qed.

Lemma exhausted_readline (chunk : Z) (max_bytes : option Z)
  (self : TransparentUnzip) :
  exhausted chunk self -> readline chunk max_bytes self = Return [] self.
Proof.
  intros E. pose proof E as [B F]. unfold readline.
  assert (W : forall l,
            while_chunk chunk (readline_cond max_bytes) readline_body l self =
            Return l self).
  { intros l. rewrite while_chunk_unfold, F.
    destruct (readline_cond max_bytes l self); reflexivity. }
  rewrite W, B. simpl.
  destruct max_bytes; now apply exhausted_read.
Qed.

Lemma exhausted_call (chunk : Z) (c : call) (self : TransparentUnzip) :
  exhausted chunk self ->
  do_call chunk c self =
  match at_end_result c with
  | inr part => Return part self
  | inl e => Raise e self
  end.
Proof.
  intros E. destruct c; simpl.
  - now apply exhausted_read.
  - now apply exhausted_readline.
  - unfold next. rewrite exhausted_readline by exact E. reflexivity.
Qed.

Lemma exhausted_run_calls (chunk : Z) (calls : list call)
  (self : TransparentUnzip) :
  exhausted chunk self ->
  run_calls chunk calls self = (map at_end_result calls, self).
Proof.
  intros E. induction calls as [|c calls IH]; [reflexivity|].
  simpl. rewrite (exhausted_call chunk c self E).
  destruct (at_end_result c); rewrite IH; reflexivity.
Qed.

(** X2.  The end of the stream is final: once nothing is buffered and
    refilling reports no more data, every [read] and [readline], with any
    argument, returns the empty string, [next] raises [StopIteration], and
    the object is left exactly as it was. *)
Theorem end_of_stream_is_final (chunk : Z) (calls : list call)
  (self : TransparentUnzip) :
  exhausted chunk self ->
  run_calls chunk calls self = (map at_end_result calls, self).
Proof. apply exhausted_run_calls. Qed.

(** X3.  A reader on an empty stream never has anything to deliver: all
    its calls return the empty string or raise [StopIteration], the flag
    stays unknown, the decompressor is never used and both counters stay
    at zero. *)
Theorem empty_stream (chunk : Z) (calls : list call) :
  run_calls chunk calls (init []) = (map at_end_result calls, init []) /\
  header_read (snd (run_calls chunk calls (init []))) = None /\
  get_stats (snd (run_calls chunk calls (init []))) = (0, 0).
Proof.
  assert (E : exhausted chunk (init [])).
  { split; [reflexivity|apply buffer_chunk_init_nil]. }
  rewrite (exhausted_run_calls chunk calls (init []) E).
  repeat split.
Qed.

(** ** Exceptions *)

Lemma stream_read_nonempty (chunk : Z) (s c rest : bytes) :
  stream_read chunk s = (c, rest) -> is_empty c = false -> s <> [].
Proof.
  intros R E S. apply stream_read_split in R. subst s.
  destruct c; [discriminate|]. discriminate.
Qed.

Lemma stream_read_at_end (chunk : Z) (s c rest : bytes) :
  chunk <> 0 -> stream_read chunk s = (c, rest) -> is_empty c = true ->
  s = [] /\ rest = [].
Proof.
  intros Hc R E. apply is_empty_true in E. subst c.
  pose proof (stream_read_empty _ _ _ R) as X. subst rest.
  destruct s as [|b s]; [auto|].
  exfalso. eapply (stream_read_progress chunk (b :: s)); eauto. congruence.
Qed.

(** [buffer_chunk] raises [zlib.error] on a stream taken for compressed,
    or [AttributeError] when input arrives after the decompressor was
    dropped; nothing else. *)
Lemma buffer_chunk_raises (chunk : Z) (self s' : TransparentUnzip)
  (e : exn) :
  buffer_chunk chunk self = Raise e s' ->
  (e = ZlibError /\ header_read s' = Some true) \/
  (e = AttributeError /\ decompressor self = None /\ stream self <> []).
Proof.
  bc_destruct self; intros H; inversion H; subst; clear H; cbn;
    first [ left; split; [reflexivity|assumption]
          | right; split; [reflexivity|]; split; [reflexivity|];
            eapply stream_read_nonempty; eauto ].
Qed.

Lemma buffer_chunk_kept (chunk : Z) (self s' : TransparentUnzip) :
  chunk <> 0 -> decompressor_kept self ->
  final_state (buffer_chunk chunk self) = Some s' ->
  decompressor_kept s'.
Proof.
  intros Hc J. unfold decompressor_kept in *.
  bc_destruct self; intros H; inversion H; subst; clear H; cbn;
    intros N; try congruence;
    try (destruct (J eq_refl) as [JS JH]);
    try (rewrite JS in R; apply stream_read_split in R;
         symmetry in R; apply app_eq_nil in R; destruct R; subst);
    try (destruct (stream_read_at_end _ _ _ _ Hc R EC); subst);
    try congruence; try (split; congruence).
  apply is_empty_true in EC. rewrite EC in U. discriminate.
Qed.

(** On a stream taken for plain [buffer_chunk] raises nothing. *)
Lemma buffer_chunk_raw_returns (chunk : Z) (self s' : TransparentUnzip)
  (e : exn) :
  header_read self = Some false -> buffer_chunk chunk self <> Raise e s'.
Proof.
  intros HF. bc_destruct self; congruence.
Qed.

(** A property of the object that [buffer_chunk] keeps, however it ends,
    is kept by every method; and the methods raise what [buffer_chunk]
    raises, and [next] raises [StopIteration] besides. *)
Section Invariant.
Variable chunk : Z.
Variable Q : TransparentUnzip -> Prop.
Variable E : exn -> TransparentUnzip -> Prop.
Hypothesis Q_step : forall self s',
  Q self -> final_state (buffer_chunk chunk self) = Some s' -> Q s'.
Hypothesis Q_raise : forall self e s',
  Q self -> buffer_chunk chunk self = Raise e s' -> E e s'.
Hypothesis Q_rebuffer : forall self b cb ub,
  Q self -> Q (rebuffer self b cb ub).

Lemma while_chunk_invariant {L : Type}
  (cond : L -> TransparentUnzip -> bool)
  (body : L -> TransparentUnzip -> L) (l : L) (self : TransparentUnzip) :
  Q self ->
  match while_chunk chunk cond body l self with
  | Return _ s' => Q s'
  | Raise e s' => Q s' /\ E e s'
  | Diverge => False
  end.
Proof.
  revert l self.
  apply (while_chunk_ind chunk cond body
           (fun _ self r =>
              Q self ->
              match r with
              | Return _ s' => Q s'
              | Raise e s' => Q s' /\ E e s'
              | Diverge => False
              end)).
  - auto.
  - auto.
  - intros l self e s' _ B J. split.
    + apply (Q_step self s' J). now rewrite B.
    + eapply Q_raise; eauto.
  - intros l self s1 r _ B IH J. apply IH.
    apply (Q_step self s1 J). now rewrite B.
Qed.

Lemma read_invariant (size : Z) (self : TransparentUnzip) :
  Q self ->
  match read chunk size self with
  | Return _ s' => Q s'
  | Raise e s' => Q s' /\ E e s'
  | Diverge => False
  end.
Proof.
  intros J. unfold read.
  pose proof (while_chunk_invariant (fun _ s => len (buffer s) <? size)
                (fun _ _ => tt) tt self J) as W.
  destruct (while_chunk _ _ _ _ _) as [[] s1|e s1|]; simpl; auto.
  apply (Q_rebuffer s1). exact W.
Qed.

Lemma readline_invariant (max_bytes : option Z) (self : TransparentUnzip) :
  Q self ->
  match readline chunk max_bytes self with
  | Return _ s' => Q s'
  | Raise e s' => Q s' /\ E e s'
  | Diverge => False
  end.
Proof.
  intros J. unfold readline.
  pose proof (while_chunk_invariant (readline_cond max_bytes) readline_body
                (find (buffer self) NL 0, len (buffer self)) self J) as W.
  destruct (while_chunk _ _ _ _ _) as [[ni ck] s1|e s1|]; simpl; auto.
  destruct (ni =? -1); [destruct max_bytes|]; now apply read_invariant.
Qed.

Lemma do_call_invariant (c : call) (self : TransparentUnzip) :
  Q self ->
  match do_call chunk c self with
  | Return _ s' => Q s'
  | Raise e s' => Q s' /\ (e = StopIteration \/ E e s')
  | Diverge => False
  end.
Proof.
  intros J. destruct c; simpl.
  - pose proof (read_invariant size self J) as R.
    destruct (read chunk size self); intuition.
  - pose proof (readline_invariant max_bytes self J) as R.
    destruct (readline chunk max_bytes self); intuition.
  - unfold next. pose proof (readline_invariant None self J) as R.
    destruct (readline chunk None self) as [line s1|e s1|]; simpl;
      [|intuition|auto].
    destruct (is_empty line); auto.
Qed.

Lemma run_calls_invariant (calls : list call) : forall self,
  Q self ->
  Q (snd (run_calls chunk calls self)) /\
  length (fst (run_calls chunk calls self)) = length calls /\
  forall e, In (inl e) (fst (run_calls chunk calls self)) ->
    e = StopIteration \/
    exists s' out,
      E e s' /\ progress s' (snd (run_calls chunk calls self)) out.
Proof.
  induction calls as [|c calls IH]; intros self J; simpl.
  - split; [exact J|]. split; [reflexivity|]. intros e [].
  - pose proof (do_call_invariant c self J) as K.
    destruct (do_call chunk c self) as [part s1|e1 s1|] eqn:C;
      [| |contradiction].
    + destruct (run_calls chunk calls s1) as [rs s2] eqn:R.
      pose proof (IH s1 K) as (A & B & D). rewrite R in *. simpl in *.
      split; [exact A|]. split; [now rewrite B|].
      intros e [X|X]; [discriminate|auto].
    + destruct K as [K X1].
      destruct (run_calls chunk calls s1) as [rs s2] eqn:R.
      pose proof (IH s1 K) as (A & B & D). rewrite R in *. simpl in *.
      split; [exact A|]. split; [now rewrite B|].
      intros e [X|X]; [|auto].
      inversion X; subst. destruct X1 as [X1|X1]; [now left|right].
      apply run_calls_progress in R. eauto.
Qed.

End Invariant.

Lemma kept_raise (chunk : Z) (self s' : TransparentUnzip) (e : exn) :
  decompressor_kept self -> buffer_chunk chunk self = Raise e s' ->
  e = ZlibError /\ header_read s' = Some true.
Proof.
  intros J B. apply buffer_chunk_raises in B.
  destruct B as [B|(_ & D & S)]; [exact B|].
  destruct (J D) as [S' _]. contradiction.
Qed.

(** X4.  The reader never uses a decompressor it has dropped.  From a
    fresh reader, or any state in which the decompressor is dropped only
    at the end of a compressed stream, and for any calls: every call
    comes back; no call raises [AttributeError]; the only exceptions are
    [StopIteration], from [next], and [zlib.error], and that one only on a
    stream taken for compressed; and the decompressor is still dropped
    only at the end of a compressed stream. *)
Theorem only_zlib_errors (chunk : Z) (calls : list call)
  (self : TransparentUnzip) :
  chunk <> 0 -> decompressor_kept self ->
  decompressor_kept (snd (run_calls chunk calls self)) /\
  length (fst (run_calls chunk calls self)) = length calls /\
  forall e, In (inl e) (fst (run_calls chunk calls self)) ->
    e = StopIteration \/
    (e = ZlibError /\
     header_read (snd (run_calls chunk calls self)) = Some true).
Proof.
  intros Hc J.
  destruct (run_calls_invariant chunk decompressor_kept
              (fun e s' => e = ZlibError /\ header_read s' = Some true)
              (fun self s' => buffer_chunk_kept chunk self s' Hc)
              (fun self e s' => kept_raise chunk self s' e)
              (fun self b cb ub H => H) calls self J)
    as (A & B & C).
  split; [exact A|]. split; [exact B|].
  intros e H. destruct (C e H) as [X|(s' & out & [X1 X2] & P)];
    [now left|right].
  split; [exact X1|]. destruct P as (P & _). rewrite P; congruence.
Qed.

(** X5.  On a stream taken for plain (the flag is false) no call ever
    raises a decoding error: every [read] and [readline] returns, and the
    only exception is the [StopIteration] of [next]. *)
Theorem plain_stream_never_fails (chunk : Z) (calls : list call)
  (self : TransparentUnzip) :
  header_read self = Some false ->
  header_read (snd (run_calls chunk calls self)) = Some false /\
  length (fst (run_calls chunk calls self)) = length calls /\
  forall e, In (inl e) (fst (run_calls chunk calls self)) ->
    e = StopIteration.
Proof.
  intros HF.
  assert (S : forall self s',
            header_read self = Some false ->
            final_state (buffer_chunk chunk self) = Some s' ->
            header_read s' = Some false).
  { intros s0 s' H0 F. apply buffer_chunk_effect in F.
    destruct F as (F & _). rewrite F; congruence. }
  assert (R : forall self e s',
            header_read self = Some false ->
            buffer_chunk chunk self = Raise e s' -> False).
  { intros s0 e s' H0 B. eapply buffer_chunk_raw_returns; eauto. }
  destruct (run_calls_invariant chunk
              (fun s => header_read s = Some false) (fun _ _ => False)
              S R (fun _ _ _ _ H => H) calls self HF) as (A & B & C).
  split; [exact A|]. split; [exact B|].
  intros e H. destruct (C e H) as [X|(s' & out & [] & _)]. exact X.
Qed.

(** ** The shape of lines *)

Lemma index_from_first (s : bytes) : forall i,
  (index_from NL s i = -1 /\ ~ In NL s) \/
  (exists pre post,
     s = pre ++ NL :: post /\ ~ In NL pre /\
     index_from NL s i = i + len pre).
Proof.
  induction s as [|x r IH]; intros i; simpl.
  - left. split; [reflexivity|tauto].
  - destruct (Byte.eqb x NL) eqn:E.
    + apply byte_dec_bl in E. subst x. right.
      exists [], r. repeat split; [tauto|]. rewrite len_nil. lia.
    + apply eqb_false in E.
      destruct (IH (i + 1)) as [[A B]|(pre & post & A & B & C)].
      * left. split; [exact A|]. intros [X|X]; auto.
      * right. exists (x :: pre), post. subst r. repeat split.
        -- intros [X|X]; auto.
        -- rewrite C. unfold len. simpl length. lia.
Qed.

Lemma find_first (s : bytes) : first_newline s (find s NL 0).
Proof.
  unfold find, first_newline. simpl.
  destruct (index_from_first s 0) as [A|(pre & post & A & B & C)];
    [now left|right].
  exists pre, post. split; [exact A|]. split; [exact B|]. rewrite C. lia.
Qed.

(** Looking for a newline from the end of what was already searched finds
    the first newline of the whole buffer. *)
Lemma find_append (s added : bytes) :
  ~ In NL s -> first_newline (s ++ added) (find (s ++ added) NL (len s)).
Proof.
  intros N. unfold find.
  pose proof (len_nonneg s) as L.
  destruct (Z.ltb_spec (len s) 0) as [X|_]; [lia|].
  unfold len at 1. rewrite Nat2Z.id, skipn_app, skipn_all, Nat.sub_diag.
  simpl.
  destruct (index_from_first added (len s)) as [[A B]|(pre & post & A & B & C)].
  - left. split; [exact A|]. intros X. apply in_app_or in X. tauto.
  - right. exists (s ++ pre), post. subst added. repeat split.
    + now rewrite app_assoc.
    + intros X. apply in_app_or in X. tauto.
    + rewrite C, len_app. reflexivity.
Qed.

Lemma first_newline_none (s : bytes) : first_newline s (-1) -> ~ In NL s.
Proof.
  intros [[_ N]|(pre & post & _ & _ & E)]; [exact N|].
  pose proof (len_nonneg pre). lia.
Qed.

(** The loop of [readline] leaves the index of the first newline of the
    buffer, or no index at the end of refilling or with a full buffer. *)
Lemma readline_loop_shape (chunk : Z) (max_bytes : option Z) (l : Z * Z)
  (self : TransparentUnzip) :
  first_newline (buffer self) (fst l) -> snd l = len (buffer self) ->
  match while_chunk chunk (readline_cond max_bytes) readline_body l self with
  | Return l' s1 =>
      first_newline (buffer s1) (fst l') /\
      (fst l' = -1 ->
       buffer_chunk chunk s1 = Return false s1 \/
       exists m, max_bytes = Some m /\ m <= len (buffer s1))
  | _ => True
  end.
Proof.
  revert l self.
  apply (while_chunk_ind chunk (readline_cond max_bytes) readline_body
           (fun l self r =>
              first_newline (buffer self) (fst l) ->
              snd l = len (buffer self) ->
              match r with
              | Return l' s1 =>
                  first_newline (buffer s1) (fst l') /\
                  (fst l' = -1 ->
                   buffer_chunk chunk s1 = Return false s1 \/
                   exists m, max_bytes = Some m /\ m <= len (buffer s1))
              | _ => True
              end)).
  - intros [ni ck] self C F K. simpl in *. split; [exact F|].
    intros E. subst ni. simpl in C. right.
    destruct max_bytes as [m|]; [|discriminate].
    exists m. split; [reflexivity|]. now apply Z.ltb_ge.
  - intros [ni ck] self _ B F K. simpl in *. auto.
  - intros; exact Logic.I.
  - intros [ni ck] self s1 r C B IH F K. simpl in *.
    apply andb_prop in C. destruct C as [C _].
    apply Z.eqb_eq in C. subst ni ck.
    apply first_newline_none in F.
    assert (X : final_state (buffer_chunk chunk self) = Some s1)
      by now rewrite B.
    apply buffer_chunk_effect in X. destruct X as (_ & (added & A) & _).
    apply IH; [|reflexivity]. simpl. rewrite A. now apply find_append.
Qed.

Lemma slice_to_in (s : bytes) (n : Z) (x : byte) :
  In x (slice_to s n) -> In x s.
Proof.
  intros H. rewrite <- (slice_split s n). apply in_or_app. now left.
Qed.

(** What [readline] returns: a complete line, or bytes without a newline
    at the end of the stream or up to the limit. *)
Lemma readline_shape (chunk : Z) (max_bytes : option Z)
  (self s' : TransparentUnzip) (line : bytes) :
  match max_bytes with Some m => 0 <= m | None => True end ->
  readline chunk max_bytes self = Return line s' ->
  complete_line line \/
  (~ In NL line /\
   match max_bytes with
   | None => exhausted chunk s'
   | Some m => len line <= m /\ (len line < m -> exhausted chunk s')
   end).
Proof.
  intros Hm. unfold readline.
  pose proof (readline_loop_shape chunk max_bytes
                (find (buffer self) NL 0, len (buffer self)) self
                (find_first _) eq_refl) as W.
  destruct (while_chunk _ _ _ _ _) as [[ni ck] s1|e s1|]; simpl;
    [|discriminate|discriminate].
  destruct W as [F X]. simpl in F, X.
  destruct (Z.eqb_spec ni (-1)) as [E|E].
  - subst ni. specialize (X eq_refl). apply first_newline_none in F.
    destruct max_bytes as [m|]; intros R; right.
    + assert (NR : m <= len (buffer s1) \/
                   buffer_chunk chunk s1 = Return false s1).
      { destruct X as [X|(m' & M & X)]; [now right|left].
        inversion M; subst. exact X. }
      pose proof (read_no_refill chunk m s1 NR) as RN.
      assert (EL : line = slice_to (buffer s1) m) by congruence.
      split; [intros Y; apply F; rewrite EL in Y; eapply slice_to_in; eauto|].
      destruct (read_short _ _ _ _ _ Hm R) as [A B].
      split; [exact A|]. intros Lt. now destruct (B Lt).
    + destruct X as [X|(m' & M & _)]; [|discriminate].
      rewrite read_no_refill in R by (left; lia).
      inversion R; subst. rewrite slice_to_all by lia.
      split; [exact F|]. rewrite slice_from_all by lia. split.
      * reflexivity.
      * now apply buffer_chunk_false_frame.
  - destruct F as [[F _]|(pre & post & F & N & K)]; [contradiction|].
    intros R. left. exists pre. split; [|exact N].
    pose proof (len_nonneg pre) as LP.
    rewrite read_no_refill in R.
    + inversion R; subst. rewrite F, slice_to_firstn by lia.
      replace (Z.to_nat (len pre + 1)) with (length pre + 1)%nat
        by (unfold len; lia).
      rewrite firstn_app_2. reflexivity.
    + left. rewrite F, len_app. unfold len at 2. simpl length. lia.
Qed.

(** X6.  An unbounded [readline()] returns a complete line, ending in its
    only newline, or else bytes without any newline, and these only when
    the stream is exhausted afterwards: only the last line can lack its
    newline. *)
Theorem readline_returns_lines (chunk : Z) (self s' : TransparentUnzip)
  (line : bytes) :
  readline chunk None self = Return line s' ->
  complete_line line \/ (~ In NL line /\ exhausted chunk s').
Proof. intros R. exact (readline_shape chunk None self s' line Logic.I R). Qed.

(** X7.  [readline(max_bytes)] with [max_bytes >= 0] returns a complete
    line, ending in its only newline, or else at most [max_bytes] bytes
    without any newline, and fewer than [max_bytes] only when the stream
    is exhausted afterwards. *)
Theorem readline_bounded (chunk m : Z) (self s' : TransparentUnzip)
  (line : bytes) :
  0 <= m ->
  readline chunk (Some m) self = Return line s' ->
  complete_line line \/
  (~ In NL line /\ len line <= m /\ (len line < m -> exhausted chunk s')).
Proof. intros Hm R. exact (readline_shape chunk (Some m) self s' line Hm R). Qed.

Lemma readline_raises (chunk : Z) (max_bytes : option Z)
  (self s' : TransparentUnzip) (e : exn) :
  readline chunk max_bytes self = Raise e s' -> e <> StopIteration.
Proof.
  pose proof (readline_invariant chunk (fun _ => True)
                (fun e _ => e <> StopIteration)
                (fun _ _ _ _ => Logic.I)) as K.
  intros R. specialize (K ltac:(intros s0 e0 s1 _ B;
                                 apply buffer_chunk_raises in B;
                                 destruct B as [[B _]|[B _]]; congruence)
                          (fun _ _ _ _ _ => Logic.I) max_bytes self Logic.I).
  rewrite R in K. tauto.
Qed.

(** X8.  Iteration: [next] never returns an empty line; what it returns
    is a complete line or the unterminated rest of an exhausted stream;
    and it raises [StopIteration] only when the stream is exhausted, after
    which it raises it again and leaves the object as it is. *)
Theorem next_lines (chunk : Z) (self s' : TransparentUnzip) :
  (forall line, next chunk self = Return line s' ->
     line <> [] /\
     (complete_line line \/ (~ In NL line /\ exhausted chunk s'))) /\
  (next chunk self = Raise StopIteration s' ->
     exhausted chunk s' /\ next chunk s' = Raise StopIteration s').
Proof.
  unfold next at 1 2.
  destruct (readline chunk None self) as [l s1|e s1|] eqn:R; simpl.
  - pose proof (readline_shape chunk None self s1 l Logic.I R) as S.
    destruct l as [|b l]; simpl; split.
    + discriminate.
    + intros H. inversion H; subst.
      assert (E : exhausted chunk s').
      { destruct S as [(pre & X & _)|[_ X]]; [|exact X].
        destruct pre; discriminate. }
      split; [exact E|].
      exact (exhausted_call chunk Next s' E).
    + intros line H. inversion H; subst. split; [discriminate|exact S].
    + discriminate.
  - split; [discriminate|]. intros H. inversion H; subst.
    exfalso. eapply readline_raises; eauto.
  - split; discriminate.
Qed.

(** ** Nothing is lost and nothing is reordered *)

Lemma read_conserves (chunk size : Z) (self : TransparentUnzip) :
  match read chunk size self with
  | Return part s' => content chunk self = prepend part (content chunk s')
  | Raise e _ => content chunk self = Some (inl e)
  | Diverge => False
  end.
Proof.
  unfold read.
  pose proof (while_content chunk (fun _ s => len (buffer s) <? size)
                (fun _ _ => tt) tt self) as C.
  destruct (while_chunk _ _ _ _ _) as [[] s1|e s1|]; simpl; auto.
  destruct C as [C _]. rewrite <- C.
  apply (content_frame chunk s1). symmetry. apply slice_split.
Qed.

Lemma readline_conserves (chunk : Z) (max_bytes : option Z)
  (self : TransparentUnzip) :
  match readline chunk max_bytes self with
  | Return part s' => content chunk self = prepend part (content chunk s')
  | Raise e _ => content chunk self = Some (inl e)
  | Diverge => False
  end.
Proof.
  unfold readline.
  pose proof (while_content chunk (readline_cond max_bytes) readline_body
                (find (buffer self) NL 0, len (buffer self)) self) as C.
  destruct (while_chunk _ _ _ _ _) as [[ni ck] s1|e s1|]; simpl; auto.
  destruct C as [C _]. rewrite <- C.
  destruct (ni =? -1); [destruct max_bytes|]; apply read_conserves.
Qed.

Lemma do_call_conserves (chunk : Z) (c : call) (self : TransparentUnzip) :
  match do_call chunk c self with
  | Return part s' => content chunk self = prepend part (content chunk s')
  | Raise e s' =>
      content chunk self = Some (inl e) \/
      (e = StopIteration /\ content chunk self = content chunk s')
  | Diverge => False
  end.
Proof.
  destruct c; simpl.
  - pose proof (read_conserves chunk size self) as R.
    destruct (read chunk size self); auto.
  - pose proof (readline_conserves chunk max_bytes self) as R.
    destruct (readline chunk max_bytes self); auto.
  - unfold next. pose proof (readline_conserves chunk None self) as R.
    destruct (readline chunk None self) as [line s1|e s1|]; simpl; auto.
    destruct line as [|b line]; simpl; [|exact R].
    right. split; [reflexivity|]. now rewrite R, prepend_nil.
Qed.

(** X9.  Whatever calls are made, in whatever order and with whatever
    arguments, on a stream that can be drained without a decoding error:
    the bytes they deliver, in order, followed by what is then left to
    deliver, are the bytes that were there to deliver at the start.  No
    byte is lost, repeated or reordered, and no call raises anything but
    the [StopIteration] of [next]. *)
Theorem bytes_in_order (chunk : Z) (calls : list call) :
  forall (self : TransparentUnzip) (t : bytes),
  content chunk self = Some (inr t) ->
  exists rest,
    content chunk (snd (run_calls chunk calls self)) = Some (inr rest) /\
    delivered (fst (run_calls chunk calls self)) ++ rest = t /\
    length (fst (run_calls chunk calls self)) = length calls /\
    forall e, In (inl e) (fst (run_calls chunk calls self)) ->
      e = StopIteration.
Proof.
  induction calls as [|c calls IH]; intros self t C; simpl.
  - exists t. repeat split; auto. intros e [].
  - pose proof (do_call_conserves chunk c self) as K.
    destruct (do_call chunk c self) as [part s1|e1 s1|]; [| |contradiction].
    + rewrite C in K.
      destruct (content chunk s1) as [[e|t1]|] eqn:C1; simpl in K;
        try discriminate.
      inversion K; subst t.
      destruct (IH s1 t1 C1) as (rest & A & B & L & D).
      destruct (run_calls chunk calls s1) as [rs s2]. simpl in *.
      exists rest. split; [exact A|]. split; [now rewrite <- app_assoc, B|].
      split; [now rewrite L|]. intros e [X|X]; [discriminate|auto].
    + destruct K as [K|[E K]]; [congruence|]. subst e1.
      rewrite K in C.
      destruct (IH s1 t C) as (rest & A & B & L & D).
      destruct (run_calls chunk calls s1) as [rs s2]. simpl in *.
      exists rest. split; [exact A|]. split; [exact B|].
      split; [now rewrite L|].
      intros e [X|X]; [now inversion X|auto].
Qed.

(** ** Truncated and damaged streams *)

Lemma init_kept (s : bytes) : decompressor_kept (init s).
Proof. intros D. discriminate. Qed.

(** Draining a fresh reader raises nothing but [zlib.error]. *)
Lemma content_init_raises (chunk : Z) (s : bytes) (e : exn) :
  chunk <> 0 -> content chunk (init s) = Some (inl e) -> e = ZlibError.
Proof.
  intros Hc. unfold content, drain.
  pose proof (while_chunk_invariant chunk decompressor_kept
                (fun e s' => e = ZlibError /\ header_read s' = Some true)
                (fun self s' => buffer_chunk_kept chunk self s' Hc)
                (fun self e s' => kept_raise chunk self s' e)
                (fun _ _ => true) (fun _ _ => tt) tt (init s)
                (init_kept s)) as W.
  destruct (while_chunk _ _ _ _ _) as [[] s1|e1 s1|]; intros H;
    inversion H; subst. tauto.
Qed.

(** X10.  A gzip stream that breaks off inside a member is not reported:
    when the stream is the beginning of a member, the reads deliver what
    could be decompressed from it, with what the decompressor flushes at
    the end, and no call raises an exception. *)
Theorem truncated_member (chunk : Z) (p out : bytes) (d : decompressobj) :
  chunk <> 0 -> p <> [] ->
  decompress new_decompressobj p = (Some out, d) ->
  zmode_of d = Running ->
  forall size, 0 < size ->
    exists n, forall fuel, (n <= fuel)%nat ->
      exists parts s',
        read_all fuel chunk size (init p) = Return parts s' /\
        concat parts = out ++ flush d.
Proof.
  intros Hc Hp DE M size Hs.
  apply read_all_content; [exact Hs|].
  apply content_init_gunzip; [exact Hc|].
  destruct (new_decompressobj_tail _ _ _ DE) as [OK T].
  destruct p as [|b p]; [congruence|].
  rewrite <- (app_nil_r (b :: p)), gunzip_cons, T.
  unfold decoder_tail. rewrite M.
  destruct OK as [[_ U]|X]; [|congruence].
  rewrite U. reflexivity.
Qed.

(** X11.  A decoding error after the first chunk is not hidden: when the
    first chunk is decoded and the stream as a whole cannot be, reading to
    the end raises [zlib.error]. *)
Theorem later_error_is_raised (chunk : Z) (s : bytes) :
  chunk <> 0 ->
  fst (decompress new_decompressobj (first_chunk chunk s)) <> None ->
  gunzip s = None ->
  forall size, 0 < size ->
    exists n, forall fuel, (n <= fuel)%nat ->
      exists s', read_all fuel chunk size (init s) = Raise ZlibError s'.
Proof.
  intros Hc F G size Hs.
  assert (C : content chunk (init s) = Some (inl ZlibError)).
  { pose proof (content_init chunk s Hc) as C.
    destruct s as [|b s]; [discriminate|].
    destruct (fst (decompress new_decompressobj
                     (first_chunk chunk (b :: s)))); [|congruence].
    rewrite G in C. destruct C as [e C].
    now rewrite C, (content_init_raises chunk _ e Hc C). }
  destruct (until_empty_content chunk (read chunk size)
              (read_consumes chunk size Hs) (init s)) as [n Hn].
  exists n. intros fuel Hf. specialize (Hn fuel Hf). unfold read_all.
  destruct (until_empty _ fuel (init s)) as [parts s'|e s'|];
    [congruence| |contradiction].
  exists s'. congruence.
Qed.

(** ** The result of [buffer_chunk], and the counters *)

(** X12.  [buffer_chunk] reports that there is no more data exactly when
    the stream is at its end, no decompressor holds left-over input and
    none is left to flush; and then it changes nothing. *)
Theorem buffer_chunk_reports_end (chunk : Z) (self : TransparentUnzip) :
  chunk <> 0 ->
  ((exists s', buffer_chunk chunk self = Return false s') <->
   (stream self = [] /\
    forall d, decompressor self = Some d ->
      unused_data d = [] /\ header_read self <> Some true)) /\
  (forall s', buffer_chunk chunk self = Return false s' -> s' = self).
Proof.
  intros Hc. split; [split|].
  - intros [s' B]. split.
    + eapply buffer_chunk_false_stream; eauto.
    + intros d D. bc_cases B.
      * destruct NC as [(d0 & D0 & U & C & S)|(U & rest & R & S)];
          [congruence|].
        split; [now apply U|]. subst s. simpl in B. rewrite D in B.
        intros HT. rewrite HT in B. discriminate.
      * destruct (header_read s) as [[|]|]; try congruence;
          (destruct (decompressor s) as [d0|]; [|congruence]);
          destruct (decompress d0 c) as [[o|] d']; congruence.
  - intros [S K]. exists self.
    rewrite (buffer_chunk_pull chunk self [] []).
    + unfold buffer_compressed. simpl. rewrite len_nil, Z.add_0_r.
      destruct self as [st dec hdr buf cb ub]; simpl in *. subst st.
      destruct dec as [d|]; [|reflexivity].
      destruct (K d eq_refl) as [_ N].
      destruct hdr as [[|]|]; congruence || reflexivity.
    + intros d D. now destruct (K d D).
    + rewrite S. unfold stream_read.
      destruct (chunk <? 0); simpl; rewrite ?firstn_nil, ?skipn_nil;
        reflexivity.
  - intros s'. apply buffer_chunk_false.
Qed.

(** X13.  Under any calls both counters only grow and the stream is only
    consumed from its front: what is left of it is a suffix of what there
    was. *)
Theorem counters_only_grow (chunk : Z) (calls : list call)
  (self : TransparentUnzip) :
  let s' := snd (run_calls chunk calls self) in
  compressed_bytes self <= compressed_bytes s' /\
  uncompressed_bytes self <= uncompressed_bytes s' /\
  exists taken, stream self = taken ++ stream s'.
Proof.
  cbv zeta. destruct (run_calls chunk calls self) as [rs s'] eqn:R.
  apply run_calls_progress in R. destruct R as (_ & (c & S & C) & U).
  simpl. pose proof (len_nonneg c). pose proof (len_nonneg (delivered rs)).
  repeat split; try lia. eauto.
Qed.

(** X14.  Every call of [readline] and of [next] comes back, whatever the
    state of the object and whatever the limit: it returns or raises. *)
Theorem readline_terminates (chunk : Z) (max_bytes : option Z)
  (self : TransparentUnzip) :
  readline chunk max_bytes self <> Diverge /\ next chunk self <> Diverge.
Proof.
  assert (R : forall mb, readline chunk mb self <> Diverge).
  { intros mb. pose proof (readline_conserves chunk mb self) as K.
    destruct (readline chunk mb self); congruence || contradiction. }
  split; [apply R|]. unfold next. specialize (R None).
  destruct (readline chunk None self) as [line s1|e s1|]; simpl;
    [|congruence|congruence].
  destruct (is_empty line); congruence.
Qed.

End Proofs.


(** * The reader on stored gzip members and on plain text *)

Import StoredGzip.

(** Run both sides of an equation and compare the results. *)
Ltac run :=
  match goal with
  | |- ?l = ?r =>
      let v := eval vm_compute in l in
      change l with v;
      tryif has_evar r then idtac
      else (let w := eval vm_compute in r in change r with w)
  end;
  reflexivity.

Example crc32_abc : crc32 Sample.abc = 0x352441C2%N.
Proof. reflexivity. Qed.

Example gzip_stored_abc :
  gzip_stored Sample.abc =
  [x1f; x8b; x08; x00; x00; x00; x00; x00; x00; xff;
   x01; x03; x00; xfc; xff; x61; x62; x63;
   xc2; x41; x24; x35; x03; x00; x00; x00].
Proof. reflexivity. Qed.

(** The gzip of ["abc"]: [read(10)] returns ["abc"], the next one [""]. *)
Example read_gzip_abc :
  exists s',
    read_many CHUNK [10; 10] (init (gzip_stored Sample.abc)) =
    Return [Sample.abc; []] s'.
Proof. eexists. run. Qed.

(** Two members, of ["foo"] and of ["bar"]: [read(10)] returns
    ["foobar"]. *)
Example read_two_members :
  exists s1, read CHUNK 10 (init Sample.two_members) = Return Sample.foobar s1.
Proof. eexists. run. Qed.

(** Plain text ["hello\nworld"]: [readline()] returns ["hello\n"], then
    ["world"], then [""]; iterating gives the two lines and then [next]
    raises [StopIteration]. *)
Example lines_of_hello_world :
  fst (run_calls CHUNK [Readline None; Readline None; Readline None]
         (init Sample.hello_world)) =
  [inr (firstn 6 Sample.hello_world); inr (skipn 6 Sample.hello_world);
   inr []] /\
  fst (run_calls CHUNK [Next; Next; Next] (init Sample.hello_world)) =
  [inr (firstn 6 Sample.hello_world); inr (skipn 6 Sample.hello_world);
   inl StopIteration].
Proof. split; run. Qed.

(** Claim C1 at [read(10)] on the plain text ["hi"]. *)
Lemma read_bounded_witness :
  read CHUNK 10 (init Sample.hi) <> Diverge /\
  forall part s', read CHUNK 10 (init Sample.hi) = Return part s' ->
    len part <= 10 /\
    (len part < 10 ->
     exhausted CHUNK s' /\ (CHUNK <> 0 -> stream s' = [])) /\
    (0 < 10 -> part = [] ->
     exhausted CHUNK s' /\ (CHUNK <> 0 -> stream s' = [])).
Proof. apply (read_bounded CHUNK 10 (init Sample.hi)). lia. Defined.

(** Claim C1 as stated fails at [size = 0]: [read(0)] on a fresh reader of
    ["hi"] returns the empty string although nothing has been read from
    the stream and refilling would deliver data. *)
Lemma empty_read_before_exhaustion :
  0 <= 0 /\
  read CHUNK 0 (init Sample.hi) = Return [] (init Sample.hi) /\
  stream (init Sample.hi) <> [] /\
  ~ exhausted CHUNK (init Sample.hi).
Proof.
  split; [lia|]. split; [run|].
  split; [discriminate|].
  intros [_ B].
  assert (T : exists s1,
            buffer_chunk CHUNK (init Sample.hi) = Return true s1)
    by (eexists; run).
  destruct T as [s1 T]. rewrite T in B. discriminate.
Qed.

(** Claim C2 fails on the code: with ["aaaa\n"] in the stream,
    [readline(2)] returns all five bytes. *)
Theorem readline_exceeds_max_bytes :
  exists s',
    readline CHUNK (Some 2) (init Sample.aaaa_nl) =
      Return Sample.aaaa_nl s' /\
    len Sample.aaaa_nl = 5 /\ 2 < len Sample.aaaa_nl.
Proof.
  eexists. split; [run|]. split; reflexivity.
Qed.

(** Claim C3 on the plain text ["hello\nworld"]. *)
Lemma pass_through_witness :
  (forall sizes, Forall nonneg sizes ->
     exists parts s',
       read_many CHUNK sizes (init Sample.hello_world) = Return parts s' /\
       concat parts = slice_to Sample.hello_world (sum_sizes sizes)) /\
  (forall size, 0 < size ->
     exists n, forall fuel, (n <= fuel)%nat ->
       exists parts s',
         read_all fuel CHUNK size (init Sample.hello_world) =
           Return parts s' /\
         concat parts = Sample.hello_world).
Proof.
  apply (pass_through CHUNK Sample.hello_world). run.
Defined.

(** Claim C4 on the members of ["foo"] and of ["bar"]. *)
Lemma concatenated_members_witness :
  exists n, forall fuel, (n <= fuel)%nat ->
    exists parts s',
      read_all fuel CHUNK 4 (init Sample.two_members) = Return parts s' /\
      concat parts = Sample.foobar.
Proof.
  refine (proj1 (proj2 (concatenated_members CHUNK
            [(gzip_stored Sample.foo, Sample.foo);
             (gzip_stored Sample.bar, Sample.bar)] _ _)) 4 _).
  - discriminate.
  - repeat constructor; run.
  - lia.
Defined.

(** Claim C5 on two members, read seven bytes at a time and [CHUNK] bytes
    at a time. *)
Lemma chunk_size_independence_witness :
  buffer (Sample.drained 7 Sample.two_members) =
  buffer (Sample.drained CHUNK Sample.two_members) /\
  header_read (Sample.drained 7 Sample.two_members) =
  header_read (Sample.drained CHUNK Sample.two_members) /\
  forall size, 0 < size ->
    exists n, forall fuel, (n <= fuel)%nat ->
      exists parts1 f1 parts2 f2,
        read_all fuel 7 size (init Sample.two_members) = Return parts1 f1 /\
        read_all fuel CHUNK size (init Sample.two_members) =
          Return parts2 f2 /\
        concat parts1 = concat parts2.
Proof.
  apply (chunk_size_independence 7 CHUNK Sample.two_members).
  - lia.
  - reflexivity.
  - run.
  - run.
Defined.

(** Claim C5 as stated fails: on [Sample.bad_block] a reader that refills
    1 KiB at a time takes the stream for compressed, delivers decompressed
    bytes and then meets [zlib.error], while the reader that refills
    16 KiB at a time takes it for plain and delivers the stream itself. *)
Lemma chunk_size_changes_detection :
  (exists s1,
     read 1024 10 (init Sample.bad_block) = Return (repeat x61 10) s1 /\
     header_read s1 = Some true) /\
  (exists s2,
     read CHUNK 10 (init Sample.bad_block) =
       Return (firstn 10 Sample.bad_block) s2 /\
     header_read s2 = Some false) /\
  repeat x61 10 <> firstn 10 Sample.bad_block /\
  content 1024 (init Sample.bad_block) = Some (inl ZlibError) /\
  content CHUNK (init Sample.bad_block) = Some (inr Sample.bad_block).
Proof.
  split; [eexists; split; run|].
  split; [eexists; split; run|].
  split; [discriminate|].
  split; run.
Qed.

(** Claim C6 on a reader of plain text after its first refill, and on a
    reader between two members. *)
Lemma header_read_one_way_witness :
  header_read
    (snd (run_calls CHUNK [Read 1; Readline None; Next]
            (Sample.after_chunk CHUNK (init Sample.hello_world)))) =
  header_read (Sample.after_chunk CHUNK (init Sample.hello_world)) /\
  header_read (Sample.after_chunk CHUNK Sample.at_boundary) = Some true.
Proof.
  destruct (header_read_one_way CHUNK) as (_ & _ & Calls & _ & Boundary).
  split.
  - apply Calls. vm_compute. discriminate.
  - eapply (Boundary Sample.at_boundary).
    + run.
    + vm_compute. discriminate.
    + run.
    + run.
Defined.

(** Claim C7 on the plain text ["hello\nworld"], read four bytes at a
    time. *)
Lemma readlines_equal_read_witness :
  exists n, forall fuel, (n <= fuel)%nat ->
    same_bytes (readlines fuel CHUNK (init Sample.hello_world))
               (read_all fuel CHUNK 4 (init Sample.hello_world)).
Proof. apply (readlines_equal_read CHUNK 4 (init Sample.hello_world)). lia. Defined.

(** Claim C10 on the call of [buffer_chunk] between two members. *)
Lemma compressed_bytes_counts_once_witness :
  stream (Sample.after_chunk CHUNK Sample.at_boundary) =
    stream Sample.at_boundary /\
  compressed_bytes (Sample.after_chunk CHUNK Sample.at_boundary) =
    compressed_bytes Sample.at_boundary.
Proof.
  refine (proj1 (proj2 (compressed_bytes_counts_once CHUNK
            Sample.at_boundary
            (Sample.after_chunk CHUNK Sample.at_boundary) _)) _).
  - run.
  - eexists. split; [run | vm_compute; discriminate].
Defined.

(** ** The further properties at work *)

(** X1 on a reader with ["hello\nworld"] in its buffer: [read(-1)]
    returns the buffer without its last byte. *)
Lemma read_from_buffer_witness :
  exists s',
    read CHUNK (-1) Sample.buffered =
      Return (slice_to (buffer Sample.buffered) (-1)) s' /\
    stream s' = stream Sample.buffered /\
    decompressor s' = decompressor Sample.buffered /\
    header_read s' = header_read Sample.buffered /\
    compressed_bytes s' = compressed_bytes Sample.buffered /\
    buffer Sample.buffered = slice_to (buffer Sample.buffered) (-1) ++ buffer s' /\
    (0 <= -1 -> len (slice_to (buffer Sample.buffered) (-1)) = -1) /\
    (-1 < 0 ->
     slice_to (buffer Sample.buffered) (-1) =
     firstn (length (buffer Sample.buffered) - Z.to_nat (- -1))
       (buffer Sample.buffered)).
Proof.
  apply (read_from_buffer CHUNK (-1) Sample.buffered).
  vm_compute. discriminate.
Defined.

(** X2 on the reader of ["hello\nworld"] after everything was read. *)
Lemma end_of_stream_is_final_witness :
  run_calls CHUNK [Read 5; Readline (Some 3); Readline None; Next]
    Sample.finished =
  ([inr []; inr []; inr []; inl StopIteration], Sample.finished).
Proof.
  apply (end_of_stream_is_final CHUNK
           [Read 5; Readline (Some 3); Readline None; Next] Sample.finished).
  split; run.
Defined.

(** X4 on the damaged stream [Sample.bad_block], read 1 KiB at a time. *)
Lemma only_zlib_errors_witness :
  decompressor_kept
    (snd (run_calls 1024 [Read 2000; Next] (init Sample.bad_block))) /\
  length (fst (run_calls 1024 [Read 2000; Next] (init Sample.bad_block))) =
  length [Read 2000; Next] /\
  forall e,
    In (inl e) (fst (run_calls 1024 [Read 2000; Next] (init Sample.bad_block))) ->
    e = StopIteration \/
    (e = ZlibError /\
     header_read
       (snd (run_calls 1024 [Read 2000; Next] (init Sample.bad_block))) =
     Some true).
Proof.
  apply (only_zlib_errors 1024 [Read 2000; Next] (init Sample.bad_block)).
  - discriminate.
  - intros D. discriminate.
Defined.

(** X5 on the reader of plain text. *)
Lemma plain_stream_never_fails_witness :
  header_read
    (snd (run_calls CHUNK [Read 3; Next; Next; Next] Sample.buffered)) =
  Some false /\
  length (fst (run_calls CHUNK [Read 3; Next; Next; Next] Sample.buffered)) =
  length [Read 3; Next; Next; Next] /\
  forall e,
    In (inl e)
      (fst (run_calls CHUNK [Read 3; Next; Next; Next] Sample.buffered)) ->
    e = StopIteration.
Proof.
  apply (plain_stream_never_fails CHUNK [Read 3; Next; Next; Next]
           Sample.buffered).
  vm_compute. reflexivity.
Defined.

(** X6 on ["hello\nworld"]: the first line. *)
Lemma readline_returns_lines_witness :
  complete_line (firstn 6 Sample.hello_world) \/
  (~ In NL (firstn 6 Sample.hello_world) /\
   exhausted CHUNK
     (Sample.state_of (readline CHUNK None (init Sample.hello_world))
        (init Sample.hello_world))).
Proof.
  apply (readline_returns_lines CHUNK (init Sample.hello_world)). run.
Defined.

(** X7 on the plain text ["foobar"] with a limit of three bytes. *)
Lemma readline_bounded_witness :
  complete_line (firstn 3 Sample.foobar) \/
  (~ In NL (firstn 3 Sample.foobar) /\
   len (firstn 3 Sample.foobar) <= 3 /\
   (len (firstn 3 Sample.foobar) < 3 ->
    exhausted CHUNK
      (Sample.state_of (readline CHUNK (Some 3) (init Sample.foobar))
         (init Sample.foobar)))).
Proof.
  apply (readline_bounded CHUNK 3 (init Sample.foobar)); [lia|run].
Defined.

(** X8 on the reader of ["hello\nworld"] after everything was read. *)
Lemma next_lines_witness :
  exhausted CHUNK Sample.finished /\
  next CHUNK Sample.finished = Raise StopIteration Sample.finished.
Proof.
  apply (proj2 (next_lines CHUNK Sample.finished Sample.finished)). run.
Defined.

(** X9 on two members, read by a mix of calls. *)
Lemma bytes_in_order_witness :
  exists rest,
    content CHUNK
      (snd (run_calls CHUNK [Read 2; Readline (Some 1); Next]
              (init Sample.two_members))) = Some (inr rest) /\
    delivered
      (fst (run_calls CHUNK [Read 2; Readline (Some 1); Next]
              (init Sample.two_members))) ++ rest = Sample.foobar /\
    length
      (fst (run_calls CHUNK [Read 2; Readline (Some 1); Next]
              (init Sample.two_members))) =
    length [Read 2; Readline (Some 1); Next] /\
    forall e,
      In (inl e)
        (fst (run_calls CHUNK [Read 2; Readline (Some 1); Next]
                (init Sample.two_members))) ->
      e = StopIteration.
Proof.
  apply (bytes_in_order CHUNK [Read 2; Readline (Some 1); Next]
           (init Sample.two_members) Sample.foobar).
  run.
Defined.

(** X10 on the gzip of ["abc"] cut after 17 bytes: the reads deliver
    ["ab"]. *)
Lemma truncated_member_witness :
  exists n, forall fuel, (n <= fuel)%nat ->
    exists parts s',
      read_all fuel CHUNK 4 (init Sample.cut_short) = Return parts s' /\
      concat parts =
      firstn 2 Sample.abc ++
      flush (snd (decompress new_decompressobj Sample.cut_short)).
Proof.
  refine (truncated_member CHUNK Sample.cut_short (firstn 2 Sample.abc)
            (snd (decompress new_decompressobj Sample.cut_short))
            _ _ _ _ 4 _).
  - discriminate.
  - vm_compute. discriminate.
  - run.
  - vm_compute. reflexivity.
  - lia.
Defined.

(** X11 on the damaged stream [Sample.bad_block], read 1 KiB at a time. *)
Lemma later_error_is_raised_witness :
  exists n, forall fuel, (n <= fuel)%nat ->
    exists s',
      read_all fuel 1024 4 (init Sample.bad_block) = Raise ZlibError s'.
Proof.
  refine (later_error_is_raised 1024 Sample.bad_block _ _ _ 4 _).
  - discriminate.
  - vm_compute. discriminate.
  - run.
  - lia.
Defined.

(** X12 on a fresh reader of ["hi"], where refilling delivers data. *)
Lemma buffer_chunk_reports_end_witness :
  ((exists s', buffer_chunk CHUNK (init Sample.hi) = Return false s') <->
   (stream (init Sample.hi) = [] /\
    forall d, decompressor (init Sample.hi) = Some d ->
      unused_data d = [] /\ header_read (init Sample.hi) <> Some true)) /\
  (forall s', buffer_chunk CHUNK (init Sample.hi) = Return false s' ->
     s' = init Sample.hi).
Proof. apply (buffer_chunk_reports_end CHUNK (init Sample.hi)). discriminate. Defined.
